(** * Workshop/sessions/13_lstm.ipynb: character-level LSTM text generation

    A shallow embedding of the pure-Python parts of the notebook: the
    lowercased corpus (cell 2), the vocabulary dictionaries (cell 4), the
    sliding-window loop (cell 6), the one-hot vectorisation (cell 8), the
    parameter-count helpers (cell 13), the temperature sampler [sample]
    (cell 16) and one generation pass (cell 17). Cells are counted from 0,
    markdown cells included.

    Python objects are modelled as follows.
    - [str] (Python 2 byte strings): [list ascii]; a character is an [ascii].
    - [int]: [Z] where the code does arithmetic on it, [nat] for the indices
      produced by [enumerate] and [np.argmax].
    - [dict]: stdpp's [gmap]; [set]: [gset].
    - exceptions: the error monad [result].
    - numpy arrays: lists (nested lists for 2-D and 3-D arrays).
    - float64: the type [float64] below, real numbers with the IEEE special
      values. It follows binary64 on the special values, 0 and 1; the
      rounding, overflow and underflow of other results and the sign of
      zero are not modelled, and nothing is stated here that depends on
      them.
    - [np.random]'s process-wide generator: an explicit [RandomState];
      [np.random.multinomial] after numpy's [random_multinomial],
      [random_binomial] and [random_binomial_inversion].
    - the trained network: a function from the input batch to the vector
      of predictions. *)

From Stdlib Require Import ZArith Reals Lra Lia Ascii String List.
From stdpp Require Import gmap strings list sorting fin_maps.

Set Default Proof Using "Type".

(** ** Python exceptions as an error monad *)

(** [NotModelled] is no Python exception: it marks the places where the
    model of a library routine stops. *)
Inductive exn : Set := ValueError | IndexError | KeyError | NotModelled.

Inductive result (A : Type) : Type :=
| Ok (a : A)
| Raise (e : exn).
Arguments Ok {A} a.
Arguments Raise {A} e.

Global Instance result_ret : MRet result := λ A a, Ok a.

Global Instance result_bind : MBind result := λ A B k m,
  match m with
  | Ok a => k a
  | Raise e => Raise e
  end.

Global Instance result_fmap : FMap result := λ A B f m,
  match m with
  | Ok a => Ok (f a)
  | Raise e => Raise e
  end.

(** [for x in xs: body], the body threading the loop state [s]. *)
Fixpoint for_each {A S} (xs : list A) (body : A → S → result S) (s : S)
  : result S :=
  match xs with
  | [] => Ok s
  | x :: xs' => s' ← body x s; for_each xs' body s'
  end.

(** [enumerate(l)]: the pairs (index, item), indices counted from 0. *)
Definition enumerate {A} (l : list A) : list (nat * A) :=
  zip (seq 0 (length l)) l.

(** [dict(pairs)]: pairs are inserted in order, a later key overwrites. *)
Definition py_dict `{Countable K} {V} (pairs : list (K * V)) : gmap K V :=
  fold_left (λ m kv, <[kv.1 := kv.2]> m) pairs ∅.

(** [d[k]] raises [KeyError] on a missing key. *)
Definition dict_get `{Countable K} {V} (d : gmap K V) (k : K) : result V :=
  match d !! k with
  | Some v => Ok v
  | None => Raise KeyError
  end.

(** ** Cell 4 (lines 101-104 of the notebook file): the vocabulary *)

(** Python 2 orders one-character strings by their byte value. *)
Definition char_le (a b : ascii) : Prop :=
  nat_of_ascii a ≤ nat_of_ascii b.

Global Instance char_le_dec a b : Decision (char_le a b).
Proof. unfold char_le. apply _. Defined.

(** [chars = sorted(list(set(text)))] *)
Definition chars (text : list ascii) : list ascii :=
  merge_sort char_le (elements (list_to_set text : gset ascii)).

(** [char2idx = dict((c, i) for i, c in enumerate(chars))] *)
Definition char2idx (text : list ascii) : gmap ascii nat :=
  py_dict ((λ ic : nat * ascii, (ic.2, ic.1)) <$> enumerate (chars text)).

(** [idx2char = dict((i, c) for i, c in enumerate(chars))] *)
Definition idx2char (text : list ascii) : gmap nat ascii :=
  py_dict ((λ ic : nat * ascii, (ic.1, ic.2)) <$> enumerate (chars text)).

(** ** Python sequence primitives used by cells 6 and 8 *)

Local Open Scope Z_scope.

Definition len {A} (s : list A) : Z := Z.of_nat (length s).

(** Number of items of [range(lo, hi, step)] for a non-zero [step]. *)
Definition range_length (lo hi step : Z) : Z :=
  if decide (0 < step ∧ lo < hi) then 1 + (hi - 1 - lo) `div` step
  else if decide (step < 0 ∧ hi < lo) then 1 + (lo - 1 - hi) `div` (- step)
  else 0.

(** [range(lo, hi, step)] (a list in Python 2); a zero step is a
    [ValueError]. *)
Definition py_range (lo hi step : Z) : result (list Z) :=
  if decide (step = 0) then Raise ValueError
  else Ok ((λ k : nat, lo + Z.of_nat k * step)
             <$> seq 0 (Z.to_nat (range_length lo hi step))).

(** A slice bound is taken relative to the end when negative and then
    clamped to [0 .. len]. *)
Definition clamp_bound (n i : Z) : nat :=
  let i := if decide (i < 0) then i + n else i in
  if decide (i < 0) then 0%nat
  else if decide (n < i) then Z.to_nat n
  else Z.to_nat i.

(** [s[lo:hi]]: never raises. *)
Definition py_slice {A} (s : list A) (lo hi : Z) : list A :=
  let lo := clamp_bound (len s) lo in
  let hi := clamp_bound (len s) hi in
  take (hi - lo)%nat (drop lo s).

(** [s[i]]: a negative index counts from the end; out of range is an
    [IndexError]. *)
Definition py_index {A} (s : list A) (i : Z) : result A :=
  let i := if decide (i < 0) then i + len s else i in
  if decide (i < 0) then Raise IndexError
  else match s !! Z.to_nat i with
       | Some x => Ok x
       | None => Raise IndexError
       end.

(** ** Cell 6 (lines 146-152): the sliding window

    [maxlen] and [step] are the notebook's globals (40 and 3 there); they
    are parameters here. The loop state is the pair of lists
    [(sentences, next_chars)], both empty before the loop. *)

Definition window_body (text : list ascii) (maxlen : Z) (i : Z)
    (s : list (list ascii) * list ascii) : result (list (list ascii) * list ascii) :=
  let sentences := s.1 ++ [py_slice text i (i + maxlen)] in
  c ← py_index text (i + maxlen);
  Ok (sentences, s.2 ++ [c]).

Definition window_loop (text : list ascii) (maxlen step : Z)
  : result (list (list ascii) * list ascii) :=
  r ← py_range 0 (len text - maxlen) step;
  for_each r (window_body text maxlen) ([], []).

Definition sentences (text : list ascii) (maxlen step : Z) : result (list (list ascii)) :=
  fst <$> window_loop text maxlen step.

Definition next_chars (text : list ascii) (maxlen step : Z) : result (list ascii) :=
  snd <$> window_loop text maxlen step.

(** The notebook's settings. *)
Definition maxlen : Z := 40.
Definition step : Z := 3.

(** ** Cell 8 (lines 191-196): one-hot vectorisation *)

(** [np.zeros(shape, dtype=np.bool)]: a negative dimension is a
    [ValueError]. *)
Definition np_zeros2 (n0 n1 : Z) : result (list (list bool)) :=
  if decide (n0 < 0 ∨ n1 < 0) then Raise ValueError
  else Ok (replicate (Z.to_nat n0) (replicate (Z.to_nat n1) false)).

Definition np_zeros3 (n0 n1 n2 : Z) : result (list (list (list bool))) :=
  if decide (n0 < 0 ∨ n1 < 0 ∨ n2 < 0) then Raise ValueError
  else Ok (replicate (Z.to_nat n0)
             (replicate (Z.to_nat n1) (replicate (Z.to_nat n2) false))).

(** [a[i, j] = v] and [a[i, t, j] = v] with non-negative indices: an index
    past the end of its axis is an [IndexError]. *)
Definition set2 (a : list (list bool)) (i j : nat) (v : bool)
  : result (list (list bool)) :=
  match a !! i with
  | None => Raise IndexError
  | Some row =>
      if decide (j < length row)%nat then Ok (<[i := <[j := v]> row]> a)
      else Raise IndexError
  end.

Definition set3 (a : list (list (list bool))) (i t j : nat) (v : bool)
  : result (list (list (list bool))) :=
  match a !! i with
  | None => Raise IndexError
  | Some plane => plane' ← set2 plane t j v; Ok (<[i := plane']> a)
  end.

(** [l[i]] on a list, [i] non-negative. *)
Definition list_get {A} (l : list A) (i : nat) : result A :=
  match l !! i with
  | Some x => Ok x
  | None => Raise IndexError
  end.

(** The inner loop [for t, char in enumerate(sentence)]. *)
Definition vectorize_sentence (c2i : gmap ascii nat) (i : nat)
    (tc : nat * ascii) (X : list (list (list bool)))
  : result (list (list (list bool))) :=
  j ← dict_get c2i tc.2;
  set3 X i tc.1 j true.

(** The outer loop body, on the state [(X, y)]. *)
Definition vectorize_body (c2i : gmap ascii nat) (next_chars : list ascii)
    (item : nat * list ascii) (Xy : list (list (list bool)) * list (list bool))
  : result (list (list (list bool)) * list (list bool)) :=
  X ← for_each (enumerate item.2) (vectorize_sentence c2i item.1) Xy.1;
  c ← list_get next_chars item.1;
  j ← dict_get c2i c;
  y ← set2 Xy.2 item.1 j true;
  Ok (X, y).

(** Cells 4, 6 and 8 run in sequence on the corpus [text]; the result is
    the pair [(X, y)]. *)
Definition vectorize (text : list ascii) (maxlen step : Z)
  : result (list (list (list bool)) * list (list bool)) :=
  w ← window_loop text maxlen step;
  X ← np_zeros3 (len w.1) maxlen (len (chars text));
  y ← np_zeros2 (len w.1) (len (chars text));
  for_each (enumerate w.1) (vectorize_body (char2idx text) w.2) (X, y).

(** The one-hot row of length [n] with its single 1 at index [j]. *)
Definition one_hot (n j : nat) : list bool :=
  <[j := true]> (replicate n false).

(** A character known to the dictionary [c2i], with an index below [V]. *)
Definition in_vocabulary (c2i : gmap ascii nat) (V : nat) (c : ascii) : Prop :=
  ∃ j, c2i !! c = Some j ∧ (j < V)%nat.

(** The one-hot row of a character. *)
Definition encode (c2i : gmap ascii nat) (V : nat) (c : ascii) : list bool :=
  one_hot V (default 0%nat (c2i !! c)).

(** The body of the inner loop of cell 8 seen from the plane [X[i]] it
    writes to. *)
Definition vectorize_row (c2i : gmap ascii nat) (tc : nat * ascii)
    (plane : list (list bool)) : result (list (list bool)) :=
  j ← dict_get c2i tc.2;
  set2 plane tc.1 j true.

(** ** Cell 13 (lines 304-309): parameter counts *)

Definition num_lstm_params (input_dim num_cells : Z) : Z :=
  4 * (input_dim * num_cells + num_cells * num_cells + num_cells).

Definition num_fc_params (input_dim num_neurons : Z) : Z :=
  input_dim * num_neurons + num_neurons.

(** ** float64 values

    A float64 is modelled by its real value or one of the IEEE special
    values; zero carries no sign and divides like [+0.0]. The special
    values follow IEEE 754, and the model agrees with binary64 wherever
    binary64 computes without rounding: on 0, 1, the infinities and NaN,
    which is all that a one-hot vector, an invalid entry or a zero
    temperature ever meet. On other finite values the operations below
    are those of the real numbers, where binary64 rounds every result
    and lets it overflow or underflow; [np.log], [np.exp] and C's [exp],
    [log] and [sqrt] are library routines whose rounding no source here
    fixes. What is proved of [sample] is therefore of three kinds only:
    runs on special values; properties that hold whatever values the
    float operations return; and one run on [[0.5, 0.5]] with variates
    far enough from 1/2 for no rounding to change its outcome. *)

Inductive float64 : Type :=
| Finite (x : R)
| PInf
| NInf
| NaN.

Global Instance Rlt_decision (x y : R) : Decision (x < y)%R := Rlt_dec x y.
Global Instance Rle_decision (x y : R) : Decision (x <= y)%R := Rle_dec x y.
Global Instance Req_decision (x y : R) : Decision (x = y) := Req_dec_T x y.

Section float_ops.
Local Open Scope R_scope.

Definition fadd (a b : float64) : float64 :=
  match a, b with
  | NaN, _ | _, NaN => NaN
  | Finite x, Finite y => Finite (x + y)
  | PInf, NInf | NInf, PInf => NaN
  | PInf, _ | _, PInf => PInf
  | NInf, _ | _, NInf => NInf
  end.

Definition fneg (a : float64) : float64 :=
  match a with
  | Finite x => Finite (- x)
  | PInf => NInf
  | NInf => PInf
  | NaN => NaN
  end.

Definition fsub (a b : float64) : float64 := fadd a (fneg b).

Definition fmul (a b : float64) : float64 :=
  match a, b with
  | NaN, _ | _, NaN => NaN
  | Finite x, Finite y => Finite (x * y)
  | Finite x, (PInf | NInf) as i | (PInf | NInf) as i, Finite x =>
      if decide (x = 0) then NaN else if decide (0 < x) then i else fneg i
  | PInf, PInf | NInf, NInf => PInf
  | PInf, NInf | NInf, PInf => NInf
  end.

Definition fdiv (a b : float64) : float64 :=
  match a, b with
  | NaN, _ | _, NaN => NaN
  | Finite x, Finite y =>
      if decide (y = 0) then
        if decide (x = 0) then NaN else if decide (0 < x) then PInf else NInf
      else Finite (x / y)
  | Finite _, (PInf | NInf) => Finite 0
  | PInf, Finite y => if decide (y < 0) then NInf else PInf
  | NInf, Finite y => if decide (y < 0) then PInf else NInf
  | (PInf | NInf), (PInf | NInf) => NaN
  end.

(** [a < b]; false as soon as one side is NaN. *)
Definition flt (a b : float64) : bool :=
  match a, b with
  | NaN, _ | _, NaN => false
  | Finite x, Finite y => bool_decide (x < y)
  | NInf, (Finite _ | PInf) => true
  | Finite _, PInf => true
  | _, _ => false
  end.

(** [a <= b] and [a == b]; false as soon as one side is NaN. *)
Definition fle (a b : float64) : bool :=
  match a, b with
  | NaN, _ | _, NaN => false
  | Finite x, Finite y => bool_decide (x <= y)
  | NInf, _ | _, PInf => true
  | _, _ => false
  end.

Definition feq (a b : float64) : bool :=
  match a, b with
  | Finite x, Finite y => bool_decide (x = y)
  | PInf, PInf | NInf, NInf => true
  | _, _ => false
  end.

(** The macro [MIN(x, y)], [((x) < (y)) ? x : y]. *)
Definition fmin (a b : float64) : float64 := if flt a b then a else b.

(** C's [sqrt]. *)
Definition fsqrt (a : float64) : float64 :=
  match a with
  | Finite x => if decide (x < 0) then NaN else Finite (sqrt x)
  | PInf => PInf
  | NInf | NaN => NaN
  end.

(** [np.log] and C's [log]: the logarithm of zero is [-inf], of a negative
    number NaN (numpy only warns). *)
Definition np_log (a : float64) : float64 :=
  match a with
  | Finite x =>
      if decide (x < 0) then NaN
      else if decide (x = 0) then NInf
      else Finite (ln x)
  | PInf => PInf
  | NInf | NaN => NaN
  end.

(** [np.exp] and C's [exp]. *)
Definition np_exp (a : float64) : float64 :=
  match a with
  | Finite x => Finite (exp x)
  | PInf => PInf
  | NInf => Finite 0
  | NaN => NaN
  end.

(** [np.sum] of a 1-D array; the empty sum is [0.0]. *)
Definition np_sum (a : list float64) : float64 :=
  foldr fadd (Finite 0) a.

(** The conversion of a C double to a 64-bit integer: truncation towards
    zero; NaN, the infinities and values out of range give the smallest
    integer (what the x86-64 conversion delivers; C leaves the result
    undefined). *)
Definition to_long (a : float64) : Z :=
  match a with
  | Finite x =>
      if decide (- IZR (2 ^ 63) - 1 < x ∧ x < IZR (2 ^ 63)) then
        if decide (0 <= x) then Zfloor x else (- Zfloor (- x))%Z
      else (- 2 ^ 63)%Z
  | _ => (- 2 ^ 63)%Z
  end.

End float_ops.

(** ** numpy's process-wide random generator

    The state of [np.random] is modelled by the stream of 53-bit integers
    its generator will deliver and the position reached in it. [rk_double]
    scales the next integer into a variate of the interval [0, 1) and
    advances the position. *)

Record RandomState : Type := mkRandomState {
  rk_stream : nat → Z;
  rk_pos : nat
}.

Definition rk_double (st : RandomState) : R * RandomState :=
  ((IZR (rk_stream st (rk_pos st) `mod` 2 ^ 53) / IZR (2 ^ 53))%R,
   mkRandomState (rk_stream st) (S (rk_pos st))).
Arguments rk_double : simpl never.

(** ** [np.random.multinomial] (numpy's mtrand.pyx and distributions.c)

    [RandomState.multinomial] checks [pvals] and runs
    [random_multinomial], which draws each count but the last with
    [random_binomial]. With at most 30 expected successes
    [random_binomial] is [random_binomial_inversion]; its other routine
    (BTPE), which one experiment reaches only on a NaN probability, is
    not modelled: the model stops there with [NotModelled]. *)

(** The loop of [random_binomial_inversion],

      while (U > px) {
        X++;
        if (X > bound) { X = 0; px = qn; U = next_double(state); }
        else { U -= px; px = ((n - X + 1) * p * px) / (X * q); }
      }
      return X;

    followed for [tests] evaluations of its condition. *)
Fixpoint inversion_loop (tests : nat) (n : Z) (p q qn : float64) (bound : Z)
    (X : Z) (px U : float64) (st : RandomState) : result (Z * RandomState) :=
  match tests with
  | O => Raise NotModelled
  | S tests =>
      if flt px U then
        let X := X + 1 in
        if decide (bound < X) then
          let us := rk_double st in
          inversion_loop tests n p q qn bound 0 qn (Finite us.1) us.2
        else
          let U := fsub U px in
          let px := fdiv (fmul (fmul (Finite (IZR (n - X + 1))) p) px)
                         (fmul (Finite (IZR X)) q) in
          inversion_loop tests n p q qn bound X px U st
      else Ok (X, st)
  end.

(** [random_binomial_inversion(state, n, p)]: [q = 1.0 - p],
    [qn = exp(n * log(q))], [np = n * p],
    [bound = min(n, np + 10.0 * sqrt(np * q + 1))], then the loop from
    [X = 0], [px = qn] and a first variate [U]. (The routine keeps the
    four values in the generator object for the next call with the same
    [n] and [p]; that cache changes no result and is left out.) Between
    two draws the loop evaluates its condition at most [bound + 1 <= n + 1]
    times; the model follows it that far, up to the point where the
    routine would draw a second variate. In the exact arithmetic of the
    model no call with [n = 1] gets there (lemma
    [random_binomial_inversion_returns]); in binary64 the rounding of
    [qn] can send a variate close to 1 there. *)
Definition random_binomial_inversion (n : Z) (p : float64) (st : RandomState)
  : result (Z * RandomState) :=
  let q := fsub (Finite 1) p in
  let qn := np_exp (fmul (Finite (IZR n)) (np_log q)) in
  let np := fmul (Finite (IZR n)) p in
  let bound :=
    to_long (fmin (Finite (IZR n))
               (fadd np (fmul (Finite 10) (fsqrt (fadd (fmul np q) (Finite 1))))))
  in
  let us := rk_double st in
  inversion_loop (Z.to_nat n + 1) n p q qn bound 0 qn (Finite us.1) us.2.

(** [random_binomial(state, p, n)]: no variate is drawn for [p == 0.0]. *)
Definition random_binomial (p : float64) (n : Z) (st : RandomState)
  : result (Z * RandomState) :=
  if bool_decide (n = 0) || feq p (Finite 0) then Ok (0, st)
  else if fle p (Finite (1 / 2)) then
    if fle (fmul p (Finite (IZR n))) (Finite 30)
    then random_binomial_inversion n p st
    else Raise NotModelled
  else
    let q := fsub (Finite 1) p in
    if fle (fmul q (Finite (IZR n))) (Finite 30)
    then r ← random_binomial_inversion n q st; Ok (n - r.1, r.2)
    else Raise NotModelled.

(** The loop [for j in 0 .. d-2] of [random_multinomial]: [pix] holds
    the probabilities not yet visited, [j] the index of its head,
    [remaining_p] the probability mass left, [dn] the number of
    experiments left and [mnix] the row of counts. *)
Fixpoint multinomial_trials (pix : list float64) (j : nat)
    (remaining_p : float64) (dn : Z) (mnix : list Z) (st : RandomState)
  : result (list Z * Z * RandomState) :=
  match pix with
  | [] => Ok (mnix, dn, st)
  | p :: pix' =>
      xs ← random_binomial (fdiv p remaining_p) dn st;
      let mnix := <[j := xs.1]> mnix in
      let dn := dn - xs.1 in
      if decide (dn ≤ 0) then Ok (mnix, dn, xs.2)
      else multinomial_trials pix' (S j) (fsub remaining_p p) dn mnix xs.2
  end.

(** [kahan_sum(darr, n)] of mtrand.pyx: the compensated sum of the first
    [n] entries. It starts from [darr[0]], also when [n = 0]; for an
    empty array the model takes [0.0], with which the check of
    [multinomial] passes. *)
Fixpoint kahan_loop (darr : list float64) (sum c : float64) : float64 :=
  match darr with
  | [] => sum
  | x :: darr' =>
      let y := fsub x c in
      let t := fadd sum y in
      let c := fsub (fsub t sum) y in
      kahan_loop darr' t c
  end.

Definition kahan_sum (darr : list float64) (n : nat) : float64 :=
  match darr with
  | [] => Finite 0
  | x :: darr' => kahan_loop (take (n - 1) darr') x (Finite 0)
  end.

(** [np.random.multinomial(1, pvals, 1)]: an array of shape [(1, d)].
    An entry of [pvals] outside [0, 1] or NaN is a [ValueError], and so
    is [kahan_sum(pvals, d - 1) > 1.0 + 1e-12]. The first [d - 1]
    probabilities are then tried in turn, each against the mass left; the
    last category receives the experiment when none succeeded. *)
Definition np_random_multinomial (pvals : list float64) (st : RandomState)
  : result (list (list Z) * RandomState) :=
  let d := length pvals in
  if negb (forallb (λ x, fle (Finite 0) x && fle x (Finite 1)) pvals)
  then Raise ValueError
  else if flt (Finite (1 + 1 / 10 ^ 12)%R) (kahan_sum pvals (d - 1))
  then Raise ValueError
  else
    r ← multinomial_trials (take (d - 1) pvals) 0 (Finite 1) 1
          (replicate d 0) st;
    let '(mnix, dn, st') := r in
    let mnix := if decide (0 < dn) then <[(d - 1)%nat := dn]> mnix else mnix in
    Ok ([mnix], st').

(** [np.argmax] of a 2-D integer array: the position, in the flattened
    array, of the first largest entry; [ValueError] on an empty array. *)
Fixpoint argmax_from (l : list Z) (i : nat) (best : Z) (besti : nat) : nat :=
  match l with
  | [] => besti
  | x :: l' =>
      if decide (best < x) then argmax_from l' (S i) x i
      else argmax_from l' (S i) best besti
  end.

Definition np_argmax (a : list (list Z)) : result nat :=
  match concat a with
  | [] => Raise ValueError
  | x :: l => Ok (argmax_from l 1 x 0)
  end.

(** ** Cell 16 (lines 359-367): the sampler *)

(** The value of the local variable [preds] when [np.random.multinomial]
    is called (lines 2 to 5 of the body; the conversion
    [np.asarray(preds).astype('float64')] is the identity on a list of
    float64). *)
Definition sample_preds (preds : list float64) (temperature : float64)
  : list float64 :=
  let preds := (λ x, fdiv (np_log x) temperature) <$> preds in
  let exp_preds := np_exp <$> preds in
  (λ x, fdiv x (np_sum exp_preds)) <$> exp_preds.

(** [sample(preds, temperature)], run from the generator state [st]: the
    sampled index and the state the generator is left in. The default
    [temperature=1.0] is passed explicitly as [Finite 1]. *)
Definition sample (preds : list float64) (temperature : float64)
    (st : RandomState) : result (nat * RandomState) :=
  let preds := sample_preds preds temperature in
  r ← np_random_multinomial preds st;
  k ← np_argmax r.1;
  Ok (k, r.2).

(** The sum of a list of real numbers. *)
Definition Rsum (l : list R) : R := foldr Rplus 0%R l.
Arguments Rsum : simpl never.

(** Two generator states that will deliver the same variates. *)
Definition same_stream (st1 st2 : RandomState) : Prop :=
  ∀ i : nat,
    rk_stream st1 (rk_pos st1 + i)%nat = rk_stream st2 (rk_pos st2 + i)%nat.

(** Two runs that end alike: with the same value, in generator states
    that will deliver the same variates, or with the same exception. *)
Definition alike {A} (r1 r2 : result (A * RandomState)) : Prop :=
  match r1, r2 with
  | Ok (a1, s1), Ok (a2, s2) => a1 = a2 ∧ same_stream s1 s2
  | Raise e1, Raise e2 => e1 = e2
  | _, _ => False
  end.

(** The generator only moves forward: [st'] has the stream of [st] and a
    position that is not smaller. *)
Definition advanced (st st' : RandomState) : Prop :=
  rk_stream st' = rk_stream st ∧ (rk_pos st ≤ rk_pos st')%nat.

(** ** Cell 2 (line 65): the corpus is read and lowercased

    [text = open(path).read().lower()]. On a Python 2 byte string
    [lower] maps each byte with the C library's [tolower]; in the C locale
    Python runs in (it does not call [setlocale]) that moves the 26 letters
    [A .. Z] to [a .. z] and leaves every other byte alone. *)

Definition is_upper (c : ascii) : Prop :=
  (65 ≤ nat_of_ascii c ≤ 90)%nat.

Global Instance is_upper_dec c : Decision (is_upper c).
Proof. unfold is_upper. apply _. Defined.

Definition py_lower_char (c : ascii) : ascii :=
  if decide (is_upper c) then ascii_of_nat (nat_of_ascii c + 32) else c.

Definition py_lower (s : list ascii) : list ascii := py_lower_char <$> s.

(** ** Cell 17 (lines 665-685): one generation pass

    The pass run for each [diversity], from the seed position
    [start_index] that [random.randint(0, len(text) - maxlen - 1)] picked.
    [predict] stands for [model.predict(x, verbose=0)[0]], the first row of
    the network's output on the batch [x] of shape [(1, maxlen, len(chars))].
    [print(s)] writes [s] and a newline to the standard output. *)

(** [np.zeros(shape)] for any cell type, [a[i, j] = v] and [a[i, t, j] = v]
    as in cell 8. *)
Definition array_zeros3 {A} (z : A) (n0 n1 n2 : Z) : result (list (list (list A))) :=
  if decide (n0 < 0 ∨ n1 < 0 ∨ n2 < 0) then Raise ValueError
  else Ok (replicate (Z.to_nat n0)
             (replicate (Z.to_nat n1) (replicate (Z.to_nat n2) z))).

Definition array_set2 {A} (a : list (list A)) (i j : nat) (v : A)
  : result (list (list A)) :=
  match a !! i with
  | None => Raise IndexError
  | Some row =>
      if decide (j < length row)%nat then Ok (<[i := <[j := v]> row]> a)
      else Raise IndexError
  end.

Definition array_set3 {A} (a : list (list (list A))) (i t j : nat) (v : A)
  : result (list (list (list A))) :=
  match a !! i with
  | None => Raise IndexError
  | Some plane => plane' ← array_set2 plane t j v; Ok (<[i := plane']> a)
  end.

(** The loop [for t, char in enumerate(sentence): x[0, t, char2idx[char]] = 1.] *)
Definition encode_body (c2i : gmap ascii nat) (tc : nat * ascii)
    (x : list (list (list float64))) : result (list (list (list float64))) :=
  j ← dict_get c2i tc.2;
  array_set3 x 0 tc.1 j (Finite 1).

(** The same body seen from the plane [x[0]] it writes to. *)
Definition encode_row (c2i : gmap ascii nat) (tc : nat * ascii)
    (plane : list (list float64)) : result (list (list float64)) :=
  j ← dict_get c2i tc.2;
  array_set2 plane tc.1 j (Finite 1).

(** [1.0] for [True] and [0.0] for [False]. *)
Definition float_of_bool (b : bool) : float64 :=
  if b then Finite 1 else Finite 0.

Definition encode_sentence (text : list ascii) (maxlen : Z) (sentence : list ascii)
  : result (list (list (list float64))) :=
  x ← array_zeros3 (Finite 0) 1 maxlen (len (chars text));
  for_each (enumerate sentence) (encode_body (char2idx text)) x.

(** The variables the pass updates. *)
Record gen_state : Type := mkGenState {
  gen_generated : list ascii;
  gen_sentence : list ascii;
  gen_stdout : list ascii;
  gen_random : RandomState
}.

(** The body of [for i in range(400)]. *)
Definition generate_body (text : list ascii) (maxlen : Z)
    (predict : list (list (list float64)) → list float64)
    (diversity : float64) (i : Z) (s : gen_state) : result gen_state :=
  x ← encode_sentence text maxlen (gen_sentence s);
  let preds := predict x in
  r ← sample preds diversity (gen_random s);
  next_char ← dict_get (idx2char text) r.1;
  Ok (mkGenState
        (gen_generated s ++ [next_char])
        (py_slice (gen_sentence s) 1 (len (gen_sentence s)) ++ [next_char])
        (gen_stdout s ++ [next_char])
        r.2).

Definition newline : ascii := ascii_of_nat 10.
Definition double_quote : ascii := ascii_of_nat 34.

Definition seed_banner (sentence : list ascii) : list ascii :=
  list_ascii_of_string "----- Generating with seed: "
    ++ [double_quote] ++ sentence ++ [double_quote].

Definition generate (text : list ascii) (maxlen : Z)
    (predict : list (list (list float64)) → list float64)
    (diversity : float64) (start_index : Z) (st : RandomState)
    (stdout : list ascii) : result gen_state :=
  let generated := [] in
  let sentence := py_slice text start_index (start_index + maxlen) in
  let generated := generated ++ sentence in
  let stdout := stdout ++ seed_banner sentence ++ [newline] in
  let stdout := stdout ++ generated in
  r ← py_range 0 400 1;
  s ← for_each r (generate_body text maxlen predict diversity)
        (mkGenState generated sentence stdout st);
  Ok (mkGenState (gen_generated s) (gen_sentence s)
        (gen_stdout s ++ [newline]) (gen_random s)).

(** * Properties *)

(** ** The vocabulary (cell 4) *)

Section vocabulary.
Local Close Scope Z_scope.

Lemma enumerate_lookup {A} (l : list A) (k : nat) :
  enumerate l !! k = (λ x, (k, x)) <$> l !! k.
Proof.
  unfold enumerate. rewrite lookup_zip_with.
  destruct (l !! k) as [x|] eqn:Hx.
  - assert (Hk : k < length l) by (by eapply lookup_lt_Some).
    assert (Hs : seq 0 (length l) !! k = Some k) by (apply lookup_seq; lia).
    by rewrite Hs.
  - destruct (seq 0 (length l) !! k); done.
Qed.

Lemma elem_of_enumerate {A} (l : list A) (i : nat) (x : A) :
  (i, x) ∈ enumerate l ↔ l !! i = Some x.
Proof.
  rewrite list_elem_of_lookup. split.
  - intros [k Hk]. rewrite enumerate_lookup in Hk.
    destruct (l !! k) eqn:E; simplify_eq/=. done.
  - intros Hi. exists i. rewrite enumerate_lookup, Hi. done.
Qed.

Lemma enumerate_fst {A} (l : list A) : (enumerate l).*1 = seq 0 (length l).
Proof. unfold enumerate. apply fst_zip. by rewrite length_seq. Qed.

Lemma enumerate_snd {A} (l : list A) : (enumerate l).*2 = l.
Proof. unfold enumerate. apply snd_zip. by rewrite length_seq. Qed.

Lemma py_dict_snoc `{Countable K} {V} (pairs : list (K * V)) (kv : K * V) :
  py_dict (pairs ++ [kv]) = <[kv.1 := kv.2]> (py_dict pairs).
Proof. unfold py_dict. by rewrite fold_left_app. Qed.

(** With pairwise distinct keys a dictionary built from pairs holds
    exactly these pairs. *)
Lemma py_dict_lookup `{Countable K} {V} (pairs : list (K * V)) (k : K) (v : V) :
  NoDup pairs.*1 → py_dict pairs !! k = Some v ↔ (k, v) ∈ pairs.
Proof.
  induction pairs as [|[k' v'] pairs IH] using rev_ind; intros Hnd.
  - unfold py_dict; simpl. rewrite lookup_empty, elem_of_nil. naive_solver.
  - rewrite py_dict_snoc. rewrite fmap_app in Hnd. simpl in *.
    apply NoDup_app in Hnd as (Hnd & Hfresh & _).
    rewrite elem_of_app, list_elem_of_singleton.
    destruct (decide (k' = k)) as [->|Hne].
    + rewrite lookup_insert_eq. split.
      * intros [= ->]. by right.
      * intros [Hin| [= ->]]; [|done].
        exfalso. apply (Hfresh k); [|by apply list_elem_of_singleton].
        apply list_elem_of_fmap. by exists (k, v).
    + rewrite lookup_insert_ne by done. rewrite IH by done.
      split; [by left|]. intros [?|[= -> ->]]; done.
Qed.

Lemma dict_get_Ok `{Countable K} {V} (d : gmap K V) (k : K) (v : V) :
  dict_get d k = Ok v ↔ d !! k = Some v.
Proof. unfold dict_get. destruct (d !! k); naive_solver. Qed.

Global Instance char_le_total : Total char_le.
Proof. intros a b. unfold char_le. lia. Qed.

Global Instance char_le_trans : Transitive char_le.
Proof. intros a b c. unfold char_le. lia. Qed.

Global Instance char_le_antisymm : AntiSymm (=) char_le.
Proof.
  intros a b Hab Hba. unfold char_le in *.
  rewrite <- (ascii_nat_embedding a), <- (ascii_nat_embedding b).
  f_equal. lia.
Qed.

Lemma elem_of_chars (text : list ascii) (c : ascii) : c ∈ chars text ↔ c ∈ text.
Proof.
  unfold chars. rewrite merge_sort_Permutation, elem_of_elements.
  apply elem_of_list_to_set.
Qed.

Lemma NoDup_chars (text : list ascii) : NoDup (chars text).
Proof.
  unfold chars. rewrite merge_sort_Permutation. apply NoDup_elements.
Qed.

Lemma chars_sorted (text : list ascii) : StronglySorted char_le (chars text).
Proof. apply StronglySorted_merge_sort; apply _. Qed.

Lemma char2idx_lookup (text : list ascii) (c : ascii) (i : nat) :
  char2idx text !! c = Some i ↔ chars text !! i = Some c.
Proof.
  unfold char2idx. rewrite py_dict_lookup.
  - rewrite list_elem_of_fmap. setoid_rewrite <- elem_of_enumerate. split.
    + intros ([i' c'] & [= -> ->] & Hin). done.
    + intros Hin. by exists (i, c).
  - rewrite <- list_fmap_compose.
    rewrite (list_fmap_ext _ snd (enumerate (chars text))) by done.
    rewrite enumerate_snd. apply NoDup_chars.
Qed.

Lemma idx2char_lookup (text : list ascii) (c : ascii) (i : nat) :
  idx2char text !! i = Some c ↔ chars text !! i = Some c.
Proof.
  unfold idx2char. rewrite py_dict_lookup.
  - rewrite list_elem_of_fmap. setoid_rewrite <- elem_of_enumerate. split.
    + intros ([i' c'] & [= -> ->] & Hin). done.
    + intros Hin. by exists (i, c).
  - rewrite <- list_fmap_compose.
    rewrite (list_fmap_ext _ fst (enumerate (chars text))) by done.
    rewrite enumerate_fst. apply NoDup_seq.
Qed.

(** C3. [char2idx] and [idx2char] are mutually inverse bijections between
    the sorted duplicate-free list [chars] of the characters of the corpus
    and the indices [0 .. len(chars) - 1]: [idx2char[char2idx[c]] = c] for
    every character [c] of the corpus, [char2idx[idx2char[i]] = i] for
    every index [i] in range, and neither dictionary has any other key. *)
Theorem vocabulary_bijection (text : list ascii) :
  (∀ c, c ∈ text →
     dict_get (char2idx text) c ≫= dict_get (idx2char text) = Ok c) ∧
  (∀ i, i < length (chars text) →
     dict_get (idx2char text) i ≫= dict_get (char2idx text) = Ok i) ∧
  (∀ c, is_Some (char2idx text !! c) ↔ c ∈ text) ∧
  (∀ i, is_Some (idx2char text !! i) ↔ i < length (chars text)) ∧
  StronglySorted char_le (chars text) ∧ NoDup (chars text) ∧
  (∀ c, c ∈ chars text ↔ c ∈ text).
Proof.
  split_and!.
  - intros c Hc. apply elem_of_chars, list_elem_of_lookup in Hc as [i Hi].
    rewrite (proj2 (dict_get_Ok _ c i)) by by apply char2idx_lookup.
    simpl. by apply dict_get_Ok, idx2char_lookup.
  - intros i Hi. apply lookup_lt_is_Some in Hi as [c Hc].
    rewrite (proj2 (dict_get_Ok _ i c)) by by apply idx2char_lookup.
    simpl. by apply dict_get_Ok, char2idx_lookup.
  - intros c. rewrite <- elem_of_chars, list_elem_of_lookup.
    unfold is_Some. by setoid_rewrite char2idx_lookup.
  - intros i. rewrite <- lookup_lt_is_Some.
    unfold is_Some. by setoid_rewrite idx2char_lookup.
  - apply chars_sorted.
  - apply NoDup_chars.
  - apply elem_of_chars.
Qed.

Lemma vocabulary_bijection_witness :
  "c"%char ∈ list_ascii_of_string "the cat" ∧
  dict_get (char2idx (list_ascii_of_string "the cat")) "c"%char
    ≫= dict_get (idx2char (list_ascii_of_string "the cat")) = Ok "c"%char.
Proof.
  split.
  - simpl. set_solver.
  - apply (proj1 (vocabulary_bijection (list_ascii_of_string "the cat"))).
    simpl. set_solver.
Defined.

End vocabulary.

(** ** The sliding window (cell 6) *)

Section windowing.
Local Open Scope Z_scope.

Lemma range_length_pos (hi step : Z) (k : nat) :
  0 < step →
  (k < Z.to_nat (range_length 0 hi step))%nat ↔ Z.of_nat k * step < hi.
Proof.
  intros Hstep. unfold range_length.
  destruct (decide (0 < step ∧ 0 < hi)) as [[_ Hhi]|Hn].
  - rewrite Z.sub_0_r.
    assert (Hq : 0 ≤ (hi - 1) `div` step) by (apply Z.div_pos; lia).
    pose proof (Z.mul_div_le (hi - 1) step Hstep) as Hlo.
    pose proof (Z.mul_succ_div_gt (hi - 1) step Hstep) as Hup.
    split; intros Hk; nia.
  - rewrite decide_False by lia. simpl. split; [lia|]. nia.
Qed.

(** The items of [range(0, hi, step)] for a positive [step]: the multiples
    of [step] below [hi], in increasing order. *)
Lemma py_range_lookup (hi step : Z) :
  0 < step →
  ∃ r, py_range 0 hi step = Ok r ∧
       ∀ (k : nat) (i : Z), r !! k = Some i ↔ i = Z.of_nat k * step ∧ i < hi.
Proof.
  intros Hstep. unfold py_range. rewrite decide_False by lia.
  eexists; split; [done|]. intros k i.
  rewrite list_lookup_fmap.
  destruct (seq 0 (Z.to_nat (range_length 0 hi step)) !! k) as [k'|] eqn:E.
  - apply lookup_seq in E as [-> Hk]. simpl.
    apply range_length_pos in Hk; [|done]. split; [intros [= <-]; lia|].
    intros [-> _]. by rewrite Z.add_0_l.
  - simpl. split; [done|]. intros [-> Hlt].
    apply (range_length_pos hi step k Hstep) in Hlt.
    apply lookup_ge_None in E. rewrite length_seq in E. lia.
Qed.

(** Without a positive step the loop has nothing to visit. *)
Lemma py_range_nonpos (lo hi step : Z) (r : list Z) :
  step ≤ 0 → lo ≤ hi → py_range lo hi step = Ok r → r = [].
Proof.
  intros Hstep Hhi. unfold py_range, range_length.
  case_decide; [done|]. intros [= <-].
  repeat case_decide; (done || lia).
Qed.

Lemma clamp_bound_id (n i : Z) : 0 ≤ i ≤ n → clamp_bound n i = Z.to_nat i.
Proof.
  intros Hi. unfold clamp_bound.
  destruct (decide (i < 0)); [lia|]. simpl.
  by rewrite !decide_False by lia.
Qed.

(** A slice whose bounds lie within the string is the substring between
    them: nothing is clamped. *)
Lemma py_slice_inside {A} (s : list A) (i n : Z) :
  0 ≤ i → 0 ≤ n → i + n ≤ len s →
  py_slice s i (i + n) = take (Z.to_nat n) (drop (Z.to_nat i) s).
Proof.
  intros Hi Hn Hlen. unfold py_slice.
  rewrite !clamp_bound_id by lia. f_equal. lia.
Qed.

Lemma py_index_inside {A} (s : list A) (i : Z) :
  0 ≤ i < len s → ∃ x, py_index s i = Ok x ∧ s !! Z.to_nat i = Some x.
Proof.
  intros Hi. unfold py_index.
  destruct (decide (i < 0)); [lia|]. simpl.
  rewrite decide_False by lia.
  destruct (lookup_lt_is_Some_2 s (Z.to_nat i)) as [x Hx].
  { unfold len in Hi. lia. }
  exists x. by rewrite Hx.
Qed.

Lemma for_each_cons {A S} (x : A) (xs : list A) (body : A → S → result S) (s : S) :
  for_each (x :: xs) body s = body x s ≫= for_each xs body.
Proof. done. Qed.

Lemma window_body_inside (text : list ascii) (maxlen i : Z)
    (ss : list (list ascii)) (ncs : list ascii) :
  0 ≤ maxlen → 0 ≤ i → i + maxlen < len text →
  ∃ c, text !! Z.to_nat (i + maxlen) = Some c ∧
       window_body text maxlen i (ss, ncs)
         = Ok (ss ++ [take (Z.to_nat maxlen) (drop (Z.to_nat i) text)],
               ncs ++ [c]).
Proof.
  intros Hmax Hi0 Hi1.
  destruct (py_index_inside text (i + maxlen)) as (c & Hc & Hlk); [lia|].
  exists c. split; [done|]. unfold window_body. rewrite Hc. simpl.
  by rewrite py_slice_inside by lia.
Qed.

Lemma for_each_window_body (text : list ascii) (maxlen : Z) (r : list Z)
    (ss : list (list ascii)) (ncs : list ascii) :
  0 ≤ maxlen →
  (∀ i, i ∈ r → 0 ≤ i ∧ i + maxlen < len text) →
  ∃ ws : list (list ascii * ascii),
    for_each r (window_body text maxlen) (ss, ncs)
      = Ok (ss ++ ws.*1, ncs ++ ws.*2) ∧
    Forall2 (λ i w,
        w.1 = take (Z.to_nat maxlen) (drop (Z.to_nat i) text) ∧
        text !! Z.to_nat (i + maxlen) = Some w.2) r ws.
Proof.
  intros Hmax. revert ss ncs.
  induction r as [|i r IH]; intros ss ncs Hr.
  - exists []. simpl. rewrite !app_nil_r. by split.
  - destruct (Hr i) as [Hi0 Hi1]; [by left|].
    destruct (window_body_inside text maxlen i ss ncs)
      as (c & Hlk & Hbody); [done..|].
    set (w := take (Z.to_nat maxlen) (drop (Z.to_nat i) text)) in *.
    destruct (IH (ss ++ [w]) (ncs ++ [c])) as (ws & Hws & Hall).
    { intros j Hj. apply Hr. by right. }
    exists ((w, c) :: ws). split.
    + rewrite for_each_cons, Hbody. simpl.
      rewrite Hws. by rewrite <- !app_assoc.
    + by constructor.
Qed.

Lemma range_items_inside (text : list ascii) (maxlen step : Z) (r : list Z) :
  0 ≤ maxlen → (0 < step ∨ maxlen < len text) →
  py_range 0 (len text - maxlen) step = Ok r →
  ∀ i, i ∈ r → 0 ≤ i ∧ i + maxlen < len text.
Proof.
  intros Hmax Hcase Hr i Hi.
  destruct (decide (0 < step)) as [Hstep|Hstep].
  - destruct (py_range_lookup (len text - maxlen) step Hstep) as (r' & Hr' & Hlk).
    rewrite Hr in Hr'. injection Hr' as <-.
    apply list_elem_of_lookup in Hi as [k Hk].
    apply Hlk in Hk as [-> Hlt]. split; nia.
  - destruct Hcase as [?|Hlen]; [done|].
    apply py_range_nonpos in Hr; [|lia..]. subst r. by apply elem_of_nil in Hi.
Qed.

(** C4. For a window length [0 <= maxlen] and a stride [0 < step], the
    loop of cell 6 ends normally and [sentences], [next_chars] hold exactly
    the pairs [(text[i : i + maxlen], text[i + maxlen])] for
    [i = 0, step, 2 * step, ...] as long as [i < len(text) - maxlen], in
    this order: the [k]-th pair is the one of [i = k * step], and there is
    no [k]-th pair once [k * step] reaches [len(text) - maxlen]. For
    "the cat sat" with window 4 and stride 2 these are the four pairs
    written out. *)
Theorem window_loop_pairs :
  (∀ (text : list ascii) (maxlen step : Z),
     0 ≤ maxlen → 0 < step →
     ∃ ss ncs,
       window_loop text maxlen step = Ok (ss, ncs) ∧
       length ss = length ncs ∧
       ∀ k : nat,
         let i := Z.of_nat k * step in
         if decide (i < len text - maxlen) then
           ss !! k = Some (take (Z.to_nat maxlen) (drop (Z.to_nat i) text)) ∧
           length (take (Z.to_nat maxlen) (drop (Z.to_nat i) text))
             = Z.to_nat maxlen ∧
           is_Some (ncs !! k) ∧
           ncs !! k = text !! Z.to_nat (i + maxlen)
         else ss !! k = None ∧ ncs !! k = None) ∧
  window_loop (list_ascii_of_string "the cat sat") 4 2
    = Ok (list_ascii_of_string <$> ["the "; "e ca"; "cat "; "t sa"]%string,
          list_ascii_of_string "ctst").
Proof.
  split; [|by vm_compute].
  intros text maxlen step Hmax Hstep.
  destruct (py_range_lookup (len text - maxlen) step Hstep) as (r & Hr & Hlk).
  destruct (for_each_window_body text maxlen r [] [] Hmax) as (ws & Hws & Hall).
  { eapply range_items_inside; eauto. }
  exists ws.*1, ws.*2. split_and!.
  - unfold window_loop. rewrite Hr. simpl. by rewrite Hws.
  - by rewrite !length_fmap.
  - intros k i. rewrite !list_lookup_fmap.
    pose proof (Hlk k i) as Hki.
    case_decide as Hlt.
    + destruct (Forall2_lookup_l _ _ _ k i Hall) as (w & Hw & Hw1 & Hw2);
        [by apply Hki|].
      rewrite Hw. simpl. rewrite Hw1, Hw2. split_and!; [done| |by eexists|done].
      rewrite length_take, length_drop. unfold len in Hlt. subst i. nia.
    + destruct (r !! k) as [i'|] eqn:Hrk.
      { apply Hlk in Hrk as [-> ?]. subst i. lia. }
      assert (ws !! k = None) as ->; [|done].
      apply lookup_ge_None. apply lookup_ge_None in Hrk.
      by rewrite <- (Forall2_length _ _ _ Hall).
Qed.

Lemma window_loop_pairs_witness :
  0 ≤ 6 ∧ 0 < 3 ∧
  ∃ ss ncs,
    window_loop (list_ascii_of_string "the cat sat on the mat") 6 3
      = Ok (ss, ncs) ∧
    length ss = length ncs.
Proof.
  split; [lia|]. split; [lia|].
  destruct (proj1 window_loop_pairs
              (list_ascii_of_string "the cat sat on the mat") 6 3)
    as (ss & ncs & Hloop & Hlen & _); [lia..|].
  by exists ss, ncs.
Defined.

(** Each turn of the loop appends one sentence and one next character. *)
Lemma for_each_window_body_length (text : list ascii) (maxlen : Z) (r : list Z) :
  ∀ s s', for_each r (window_body text maxlen) s = Ok s' →
          length s'.1 = (length s.1 + length r)%nat ∧
          length s'.2 = (length s.2 + length r)%nat.
Proof.
  induction r as [|i r IH]; intros s s' Hrun.
  - injection Hrun as <-. simpl. lia.
  - rewrite for_each_cons in Hrun.
    destruct (window_body text maxlen i s) as [s1|] eqn:Hbody; [|done].
    simpl in Hrun. apply IH in Hrun as [H1 H2].
    unfold window_body in Hbody.
    destruct (py_index text (i + maxlen)) as [c|]; [|done].
    injection Hbody as <-. simpl in *.
    rewrite length_app in H1, H2. simpl in *. lia.
Qed.

Lemma window_loop_length (text : list ascii) (maxlen step : Z)
    (ss : list (list ascii)) (ncs : list ascii) :
  window_loop text maxlen step = Ok (ss, ncs) →
  length ss = Z.to_nat (range_length 0 (len text - maxlen) step) ∧
  length ncs = length ss.
Proof.
  unfold window_loop, py_range. case_decide; [done|]. simpl.
  intros Hrun. apply for_each_window_body_length in Hrun as [H1 H2].
  simpl in *. rewrite length_fmap, length_seq in H1, H2. lia.
Qed.

(** The notebook prints [nb sequences: 200287] for its corpus of 600901
    characters, with [maxlen = 40] and [step = 3]. *)
Lemma notebook_nb_sequences (text : list ascii)
    (ss : list (list ascii)) (ncs : list ascii) :
  len text = 600901 →
  window_loop text maxlen step = Ok (ss, ncs) →
  len ss = 200287.
Proof.
  intros Hlen Hrun. apply window_loop_length in Hrun as [Hss _].
  unfold len at 1. rewrite Hss, Hlen.
  assert (Hn : range_length 0 (600901 - maxlen) step = 200287)
    by (by vm_compute).
  rewrite Hn. by rewrite Z2Nat.id.
Qed.

(** C8. When [0 <= maxlen < len(text)], whatever the stride, every index
    [i] the loop of cell 6 visits has [0 <= i] and [i + maxlen < len(text)]:
    both bounds of the slice [text[i : i + maxlen]] are positions of the
    text taken as they are (nothing is clamped), the lookup
    [text[i + maxlen]] succeeds, and the loop never raises [IndexError]. *)
Theorem window_accesses_in_bounds (text : list ascii) (maxlen step : Z) :
  0 ≤ maxlen → maxlen < len text →
  (∀ r, py_range 0 (len text - maxlen) step = Ok r →
     ∀ i, i ∈ r →
       0 ≤ i ∧ i + maxlen < len text ∧
       clamp_bound (len text) i = Z.to_nat i ∧
       clamp_bound (len text) (i + maxlen) = Z.to_nat (i + maxlen) ∧
       length (py_slice text i (i + maxlen)) = Z.to_nat maxlen ∧
       ∃ c, py_index text (i + maxlen) = Ok c) ∧
  window_loop text maxlen step ≠ Raise IndexError.
Proof.
  intros Hmax Hlen. split.
  - intros r Hr i Hi.
    destruct (range_items_inside text maxlen step r Hmax (or_intror Hlen) Hr i Hi)
      as [Hi0 Hi1].
    split_and!; [done|done|apply clamp_bound_id; lia..| |].
    + rewrite py_slice_inside by lia.
      rewrite length_take, length_drop. unfold len in *. lia.
    + destruct (py_index_inside text (i + maxlen)) as (c & Hc & _); [lia|].
      by exists c.
  - unfold window_loop.
    destruct (py_range 0 (len text - maxlen) step) as [r|e] eqn:Hr.
    + destruct (for_each_window_body text maxlen r [] [] Hmax) as (ws & Hws & _).
      { eapply range_items_inside; eauto. }
      simpl. by rewrite Hws.
    + unfold py_range in Hr. case_decide; by simplify_eq.
Qed.

Lemma window_accesses_in_bounds_witness :
  0 ≤ 4 ∧ 4 < len (list_ascii_of_string "the cat sat") ∧
  window_loop (list_ascii_of_string "the cat sat") 4 2 ≠ Raise IndexError.
Proof.
  split; [lia|]. split; [by vm_compute|].
  apply (window_accesses_in_bounds (list_ascii_of_string "the cat sat") 4 2);
    [lia|by vm_compute].
Defined.

End windowing.

(** ** One-hot vectorisation (cell 8) *)

Section vectorization.
Local Close Scope Z_scope.

Lemma one_hot_length (n j : nat) : length (one_hot n j) = n.
Proof. unfold one_hot. by rewrite length_insert, length_replicate. Qed.

Lemma one_hot_lookup (n j j' : nat) :
  j < n → j' < n → one_hot n j !! j' = Some (bool_decide (j' = j)).
Proof.
  intros Hj Hj'. unfold one_hot.
  rewrite list_lookup_insert, length_replicate.
  case_decide as Hc.
  - destruct Hc as [-> _]. by rewrite bool_decide_eq_true_2.
  - rewrite lookup_replicate_2 by done.
    rewrite bool_decide_eq_false_2; [done|]. naive_solver.
Qed.

Lemma insert_middle {B} (done : list B) (x y : B) (l : list B) :
  <[length done := y]> (done ++ x :: l) = (done ++ [y]) ++ l.
Proof.
  rewrite insert_app_r_alt by done. rewrite Nat.sub_diag. simpl.
  by rewrite <- app_assoc.
Qed.

(** A loop over [enumerate] that overwrites the [k]-th cell, still at its
    initial value [z], by [f] of the [k]-th item fills the array with the
    images of the items. The cells before the first item visited ([done])
    are left alone. *)
Lemma for_each_fill {A B} (P : A → Prop) (f : A → B) (z : B)
    (body : nat * A → list B → result (list B)) :
  (∀ k x st, P x → st !! k = Some z → body (k, x) st = Ok (<[k := f x]> st)) →
  ∀ rest done, Forall P rest →
    for_each (zip (seq (length done) (length rest)) rest) body
             (done ++ replicate (length rest) z)
      = Ok (done ++ (f <$> rest)).
Proof.
  intros Hbody. induction rest as [|x rest IH]; intros done HP.
  - done.
  - apply Forall_cons in HP as [Hx HP].
    cbn [length seq zip zip_with replicate fmap list_fmap].
    rewrite for_each_cons, Hbody; [|done|by apply list_lookup_middle].
    simpl. rewrite insert_middle.
    specialize (IH (done ++ [f x]) HP).
    rewrite length_app in IH. simpl in IH. rewrite Nat.add_1_r in IH.
    rewrite IH. by rewrite <- app_assoc.
Qed.

Section rows.
Variable c2i : gmap ascii nat.
Variable V : nat.

Local Abbreviation in_vocabulary := (in_vocabulary c2i V).
Local Abbreviation encode := (encode c2i V).
Local Abbreviation vectorize_row := (vectorize_row c2i).

Lemma vectorize_row_zero (t : nat) (c : ascii) (plane : list (list bool)) :
  in_vocabulary c → plane !! t = Some (replicate V false) →
  vectorize_row (t, c) plane = Ok (<[t := encode c]> plane).
Proof.
  intros (j & Hj & HjV) Ht. unfold vectorize_row, encode, dict_get, set2.
  simpl. rewrite Hj. simpl. rewrite Ht.
  by rewrite decide_True by by rewrite length_replicate.
Qed.

Lemma vectorize_sentence_row (i : nat) (tc : nat * ascii)
    (X : list (list (list bool))) (plane : list (list bool)) :
  X !! i = Some plane →
  vectorize_sentence c2i i tc X
    = plane1 ← vectorize_row tc plane; Ok (<[i := plane1]> X).
Proof.
  intros HX. unfold vectorize_sentence, vectorize_row, set3.
  destruct (dict_get c2i tc.2); simpl; [|done]. by rewrite HX.
Qed.

Lemma for_each_set3 (i : nat) (l : list (nat * ascii))
    (X : list (list (list bool))) (plane plane' : list (list bool)) :
  X !! i = Some plane →
  for_each l vectorize_row plane = Ok plane' →
  for_each l (vectorize_sentence c2i i) X = Ok (<[i := plane']> X).
Proof.
  revert X plane. induction l as [|[t c] l IH]; intros X plane HX Hl.
  - simpl in *. injection Hl as <-. by rewrite list_insert_id.
  - rewrite for_each_cons in Hl. rewrite for_each_cons.
    rewrite (vectorize_sentence_row i (t, c) X plane HX).
    destruct (vectorize_row (t, c) plane) as [plane1|]; simpl in *; [|done].
    rewrite (IH (<[i := plane1]> X) plane1); [|..|done].
    + by rewrite list_insert_insert_eq.
    + apply list_lookup_insert_eq. by eapply lookup_lt_Some.
Qed.

(** One pass of the inner loop over a sentence writes the one-hot rows of
    its characters into the zero plane [X[i]]. *)
Lemma vectorize_sentence_plane (i : nat) (s : list ascii)
    (X : list (list (list bool))) :
  Forall in_vocabulary s →
  X !! i = Some (replicate (length s) (replicate V false)) →
  for_each (enumerate s) (vectorize_sentence c2i i) X
    = Ok (<[i := encode <$> s]> X).
Proof.
  intros Hs HX. eapply for_each_set3; [done|].
  apply (for_each_fill in_vocabulary encode (replicate V false)
           vectorize_row vectorize_row_zero s [] Hs).
Qed.

Lemma vectorize_body_zero (ncs : list ascii) (i : nat) (s : list ascii) (c : ascii)
    (X : list (list (list bool))) (y : list (list bool)) :
  Forall in_vocabulary s → in_vocabulary c → ncs !! i = Some c →
  X !! i = Some (replicate (length s) (replicate V false)) →
  y !! i = Some (replicate V false) →
  vectorize_body c2i ncs (i, s) (X, y)
    = Ok (<[i := encode <$> s]> X, <[i := encode c]> y).
Proof.
  intros Hs (j & Hj & HjV) Hc HX Hy. unfold vectorize_body. simpl.
  rewrite vectorize_sentence_plane by done. simpl.
  unfold list_get. rewrite Hc. simpl.
  unfold dict_get. rewrite Hj. simpl.
  unfold set2. rewrite Hy.
  rewrite decide_True by by rewrite length_replicate.
  simpl. unfold encode. by rewrite Hj.
Qed.

(** The outer loop, started on the [length doneX]-th sentence. *)
Lemma for_each_vectorize_body (L : nat) (ncs : list ascii) (rest : list (list ascii)) :
  ∀ (doneX : list (list (list bool))) (doney : list (list bool)),
    length doneX = length doney →
    Forall (λ s, length s = L ∧ Forall in_vocabulary s) rest →
    (∀ k, k < length rest →
       ∃ c, ncs !! (length doneX + k) = Some c ∧ in_vocabulary c) →
    for_each (zip (seq (length doneX) (length rest)) rest)
             (vectorize_body c2i ncs)
             (doneX ++ replicate (length rest) (replicate L (replicate V false)),
              doney ++ replicate (length rest) (replicate V false))
      = Ok (doneX ++ ((λ s : list ascii, encode <$> s) <$> rest),
            doney ++ (encode <$> take (length rest) (drop (length doneX) ncs))).
Proof.
  induction rest as [|s rest IH]; intros doneX doney Hlen Hrest Hncs.
  - simpl. by rewrite !app_nil_r.
  - apply Forall_cons in Hrest as [[HsL Hs] Hrest].
    destruct (Hncs 0) as (c & Hc & Hcv); [simpl; lia|].
    rewrite Nat.add_0_r in Hc.
    cbn [length seq zip zip_with replicate fmap list_fmap].
    rewrite for_each_cons.
    rewrite (vectorize_body_zero ncs (length doneX) s c); [|done..| |].
    2:{ rewrite HsL. by apply list_lookup_middle. }
    2:{ by apply list_lookup_middle. }
    simpl. rewrite insert_middle, Hlen, insert_middle, <- Hlen.
    specialize (IH (doneX ++ [encode <$> s]) (doney ++ [encode c])).
    rewrite !length_app in IH. simpl in IH. rewrite !Nat.add_1_r in IH.
    rewrite IH; [|lia|done|].
    + rewrite <- !app_assoc. simpl.
      by rewrite (drop_S _ _ _ Hc).
    + intros k Hk. destruct (Hncs (S k)) as (c' & Hc' & Hcv'); [simpl; lia|].
      exists c'. split; [|done]. rewrite <- Hc'. f_equal. lia.
Qed.

End rows.
(** What cell 6 hands over to cell 8: as many sentences as next
    characters, every sentence [maxlen] characters of the text. *)
Lemma window_loop_result (text : list ascii) (maxlen step : Z) :
  (0 ≤ maxlen)%Z → (0 < step)%Z →
  ∃ ss ncs,
    window_loop text maxlen step = Ok (ss, ncs) ∧
    length ss = length ncs ∧
    Forall (λ s, length s = Z.to_nat maxlen ∧ Forall (.∈ text) s) ss ∧
    Forall (.∈ text) ncs.
Proof.
  intros Hmax Hstep.
  destruct (py_range_lookup (len text - maxlen) step Hstep) as (r & Hr & Hlk).
  assert (Hin : ∀ i, i ∈ r → (0 ≤ i ∧ i + maxlen < len text)%Z).
  { eapply range_items_inside; eauto. }
  destruct (for_each_window_body text maxlen r [] [] Hmax Hin)
    as (ws & Hws & Hall).
  exists ws.*1, ws.*2. split_and!.
  - unfold window_loop. rewrite Hr. simpl. by rewrite Hws.
  - by rewrite !length_fmap.
  - apply Forall_fmap, Forall_lookup. intros k w Hw.
    destruct (Forall2_lookup_r _ _ _ k w Hall Hw) as (i & Hi & Hw1 & _).
    apply list_elem_of_lookup_2, Hin in Hi. simpl. rewrite Hw1. split.
    + rewrite length_take, length_drop. unfold len in Hi. lia.
    + apply Forall_forall. intros c Hc.
      by eapply subseteq_drop, subseteq_take.
  - apply Forall_fmap, Forall_lookup. intros k w Hw.
    destruct (Forall2_lookup_r _ _ _ k w Hall Hw) as (i & _ & _ & Hw2).
    simpl. by eapply list_elem_of_lookup_2.
Qed.

Lemma in_vocabulary_text (text : list ascii) (c : ascii) :
  c ∈ text → in_vocabulary (char2idx text) (length (chars text)) c.
Proof.
  intros Hc. apply elem_of_chars, list_elem_of_lookup in Hc as [j Hj].
  exists j. split; [by apply char2idx_lookup|by eapply lookup_lt_Some].
Qed.

Lemma encode_one_hot (c2i : gmap ascii nat) (V : nat) (c : ascii) :
  in_vocabulary c2i V c →
  ∃ j, dict_get c2i c = Ok j ∧ j < V ∧ length (encode c2i V c) = V ∧
       ∀ j', j' < V → encode c2i V c !! j' = Some (bool_decide (j' = j)).
Proof.
  intros (j & Hj & HjV). exists j. unfold encode. rewrite Hj. simpl.
  split_and!; [by apply dict_get_Ok|done|apply one_hot_length|].
  intros j' Hj'. by apply one_hot_lookup.
Qed.

(** C5. For a window length [0 <= maxlen] and a stride [0 < step], cell 8
    ends normally with [X] of shape [(len(sentences), maxlen, len(chars))]
    and [y] of shape [(len(sentences), len(chars))]. The row [X[i, t, :]]
    is one-hot with its single 1 at [char2idx] of the [t]-th character of
    the [i]-th sentence, and the row [y[i, :]] is one-hot with its single 1
    at [char2idx] of the [i]-th next character. *)
Theorem vectorize_one_hot (text : list ascii) (maxlen step : Z) :
  (0 ≤ maxlen)%Z → (0 < step)%Z →
  ∃ ss ncs X y,
    window_loop text maxlen step = Ok (ss, ncs) ∧
    vectorize text maxlen step = Ok (X, y) ∧
    length X = length ss ∧
    Forall (λ plane : list (list bool),
        length plane = Z.to_nat maxlen ∧
        Forall (λ row, length row = length (chars text)) plane) X ∧
    length y = length ss ∧
    Forall (λ row : list bool, length row = length (chars text)) y ∧
    (∀ i s t c, ss !! i = Some s → s !! t = Some c →
       ∃ plane row j,
         X !! i = Some plane ∧ plane !! t = Some row ∧
         dict_get (char2idx text) c = Ok j ∧ j < length (chars text) ∧
         ∀ j', j' < length (chars text) →
               row !! j' = Some (bool_decide (j' = j))) ∧
    (∀ i c, ncs !! i = Some c →
       ∃ row j,
         y !! i = Some row ∧
         dict_get (char2idx text) c = Ok j ∧ j < length (chars text) ∧
         ∀ j', j' < length (chars text) →
               row !! j' = Some (bool_decide (j' = j))).
Proof.
  intros Hmax Hstep.
  destruct (window_loop_result text maxlen step Hmax Hstep)
    as (ss & ncs & Hloop & Hlen & Hss & Hncs).
  set (V := length (chars text)). set (c2i := char2idx text).
  assert (Hvoc : ∀ c, c ∈ text → in_vocabulary c2i V c)
    by apply in_vocabulary_text.
  exists ss, ncs, ((λ s : list ascii, encode c2i V <$> s) <$> ss),
    (encode c2i V <$> ncs).
  split_and!; [done|..].
  - unfold vectorize. rewrite Hloop. simpl.
    unfold np_zeros3, np_zeros2, len.
    rewrite !decide_False by lia. simpl. rewrite !Nat2Z.id.
    pose proof (for_each_vectorize_body c2i V (Z.to_nat maxlen) ncs ss [] [])
      as Hfill.
    simpl in Hfill. rewrite drop_0 in Hfill.
    rewrite Hlen, firstn_all, <- Hlen in Hfill.
    apply Hfill; [done|..].
    + eapply Forall_impl; [exact Hss|]. intros s [HsL Hs]. split; [done|].
      eapply Forall_impl; [exact Hs|]. apply Hvoc.
    + intros k Hk. rewrite Hlen in Hk.
      apply lookup_lt_is_Some in Hk as [c Hc]. exists c. split; [done|].
      apply Hvoc. exact (Forall_lookup_1 _ ncs k c Hncs Hc).
  - by rewrite length_fmap.
  - apply Forall_fmap. eapply Forall_impl; [exact Hss|].
    intros s [HsL Hs]. simpl. rewrite length_fmap. split; [done|].
    apply Forall_fmap. eapply Forall_impl; [exact Hs|].
    intros c Hc. simpl. unfold encode. apply one_hot_length.
  - by rewrite length_fmap.
  - apply Forall_fmap. eapply Forall_impl; [exact Hncs|].
    intros c Hc. simpl. unfold encode. apply one_hot_length.
  - intros i s t c Hs Ht.
    assert (Hc : c ∈ text).
    { destruct (Forall_lookup_1 _ ss i s Hss Hs) as [_ Hs'].
      exact (Forall_lookup_1 _ s t c Hs' Ht). }
    destruct (encode_one_hot c2i V c (Hvoc c Hc)) as (j & Hj & HjV & _ & Hrow).
    exists (encode c2i V <$> s), (encode c2i V c), j.
    rewrite !list_lookup_fmap, Hs, Ht. done.
  - intros i c Hi.
    assert (Hc : c ∈ text) by exact (Forall_lookup_1 _ ncs i c Hncs Hi).
    destruct (encode_one_hot c2i V c (Hvoc c Hc)) as (j & Hj & HjV & _ & Hrow).
    exists (encode c2i V c), j. by rewrite list_lookup_fmap, Hi.
Qed.

Lemma vectorize_one_hot_witness :
  (0 ≤ 2)%Z ∧ (0 < 2)%Z ∧
  ∃ X y, vectorize (list_ascii_of_string "abcab") 2 2 = Ok (X, y) ∧
         length X = 2 ∧ length y = 2.
Proof.
  split; [lia|]. split; [lia|].
  destruct (vectorize_one_hot (list_ascii_of_string "abcab") 2 2)
    as (ss & ncs & X & y & Hloop & Hvec & HX & _ & Hy & _); [lia..|].
  exists X, y. split; [done|].
  assert (Hss : length ss = 2); [|by rewrite HX, Hy, Hss].
  vm_compute in Hloop. by injection Hloop as <- <-.
Defined.

End vectorization.

(** ** The sampler (cell 16) *)

Section sampler.
Local Close Scope Z_scope.
Local Open Scope R_scope.

Lemma np_sum_Finite (e : list R) : np_sum (Finite <$> e) = Finite (Rsum e).
Proof.
  induction e as [|x e IH]; [done|].
  change (fadd (Finite x) (np_sum (Finite <$> e)) = Finite (x + Rsum e)).
  by rewrite IH.
Qed.

Lemma Rsum_nil : Rsum [] = 0.
Proof. done. Qed.

Lemma Rsum_cons (x : R) (l : list R) : Rsum (x :: l) = x + Rsum l.
Proof. done. Qed.

Lemma Rsum_app (l k : list R) : Rsum (l ++ k) = Rsum l + Rsum k.
Proof.
  induction l as [|x l IH]; simpl.
  - rewrite Rsum_nil. lra.
  - rewrite !Rsum_cons, IH. lra.
Qed.

Lemma Rsum_nonneg (l : list R) : Forall (λ x, 0 <= x) l → 0 <= Rsum l.
Proof.
  induction 1 as [|x l Hx Hl IH]; [rewrite Rsum_nil; lra|].
  rewrite Rsum_cons. lra.
Qed.

Lemma fmap_Finite_commute (f : float64 → float64) (g : R → R) (P : R → Prop)
    (l : list R) :
  (∀ x, P x → f (Finite x) = Finite (g x)) → Forall P l →
  f <$> (Finite <$> l) = Finite <$> (g <$> l).
Proof.
  intros Hfg. induction 1 as [|x l Hx Hl IH]; [done|].
  rewrite !fmap_cons, IH, Hfg by done. done.
Qed.

(** *** The generator *)

Lemma rk_double_spec (st : RandomState) :
  0 <= (rk_double st).1 < 1 ∧
  rk_stream (rk_double st).2 = rk_stream st ∧
  rk_pos (rk_double st).2 = S (rk_pos st).
Proof.
  unfold rk_double. cbn [fst snd rk_stream rk_pos]. split; [|done].
  pose proof (Z.mod_pos_bound (rk_stream st (rk_pos st)) (2 ^ 53) eq_refl)
    as [Hlo Hhi].
  apply IZR_le in Hlo. apply IZR_lt in Hhi.
  assert (Hpos : 0 < IZR (2 ^ 53)) by (by apply IZR_lt).
  split.
  - apply Rmult_le_pos; [done|]. left. by apply Rinv_0_lt_compat.
  - apply (Rmult_lt_reg_r (IZR (2 ^ 53))); [done|].
    unfold Rdiv. rewrite Rmult_assoc, Rinv_l by lra. lra.
Qed.

Lemma same_stream_refl (st : RandomState) : same_stream st st.
Proof. by intros i. Qed.

Lemma rk_double_same (st1 st2 : RandomState) :
  same_stream st1 st2 →
  (rk_double st1).1 = (rk_double st2).1 ∧
  same_stream (rk_double st1).2 (rk_double st2).2.
Proof.
  intros Hsame. split.
  - unfold rk_double. cbn [fst].
    pose proof (Hsame 0%nat) as H0. rewrite !Nat.add_0_r in H0.
    by rewrite H0.
  - intros i. unfold rk_double. cbn [snd rk_stream rk_pos].
    pose proof (Hsame (S i)) as HS. by rewrite !Nat.add_succ_r in HS.
Qed.

Lemma advanced_refl (st : RandomState) : advanced st st.
Proof. by split. Qed.

Lemma advanced_trans (st1 st2 st3 : RandomState) :
  advanced st1 st2 → advanced st2 st3 → advanced st1 st3.
Proof. intros [H1 H1'] [H2 H2']. split; [congruence|lia]. Qed.

Lemma rk_double_advanced (st : RandomState) : advanced st (rk_double st).2.
Proof. destruct (rk_double_spec st) as (_ & H1 & H2). split; [done|lia]. Qed.

Lemma alike_bind {A B} (r1 r2 : result (A * RandomState))
    (f : A * RandomState → result (B * RandomState)) :
  alike r1 r2 →
  (∀ a s1 s2, same_stream s1 s2 → alike (f (a, s1)) (f (a, s2))) →
  alike (r1 ≫= f) (r2 ≫= f).
Proof.
  destruct r1 as [[a1 s1]|e1], r2 as [[a2 s2]|e2]; simpl; try done.
  intros [-> Hs] Hf. by apply Hf.
Qed.

(** *** The draw reads the generator only through its variates *)

Lemma inversion_loop_alike (tests : nat) (n : Z) (p q qn : float64)
    (bound : Z) :
  ∀ (X : Z) (px U : float64) (st1 st2 : RandomState),
    same_stream st1 st2 →
    alike (inversion_loop tests n p q qn bound X px U st1)
          (inversion_loop tests n p q qn bound X px U st2).
Proof.
  induction tests as [|tests IH]; intros X px U st1 st2 Hsame; [done|].
  cbn [inversion_loop]. destruct (flt px U); [|done].
  cbv zeta. case_decide; [|by apply IH].
  destruct (rk_double_same st1 st2 Hsame) as [-> Hnext]. by apply IH.
Qed.

Lemma random_binomial_inversion_alike (n : Z) (p : float64)
    (st1 st2 : RandomState) :
  same_stream st1 st2 →
  alike (random_binomial_inversion n p st1) (random_binomial_inversion n p st2).
Proof.
  intros Hsame. unfold random_binomial_inversion. cbv zeta.
  destruct (rk_double_same st1 st2 Hsame) as [-> Hnext].
  by apply inversion_loop_alike.
Qed.

Lemma random_binomial_alike (p : float64) (n : Z) (st1 st2 : RandomState) :
  same_stream st1 st2 →
  alike (random_binomial p n st1) (random_binomial p n st2).
Proof.
  intros Hsame. unfold random_binomial.
  destruct (_ || _); [done|].
  destruct (fle p _).
  - destruct (fle _ _); [|done]. by apply random_binomial_inversion_alike.
  - cbv zeta. destruct (fle _ _); [|done].
    apply alike_bind; [by apply random_binomial_inversion_alike|].
    by intros a s1 s2 Hs.
Qed.

Lemma multinomial_trials_alike (pix : list float64) :
  ∀ (j : nat) (remaining_p : float64) (dn : Z) (mnix : list Z)
    (st1 st2 : RandomState),
    same_stream st1 st2 →
    alike (multinomial_trials pix j remaining_p dn mnix st1)
          (multinomial_trials pix j remaining_p dn mnix st2).
Proof.
  induction pix as [|p pix IH]; intros j remaining_p dn mnix st1 st2 Hsame;
    [done|].
  cbn [multinomial_trials].
  apply alike_bind; [by apply random_binomial_alike|].
  intros x s1 s2 Hs. cbn [fst snd]. case_decide; [done|]. by apply IH.
Qed.

Lemma np_random_multinomial_alike (pvals : list float64)
    (st1 st2 : RandomState) :
  same_stream st1 st2 →
  alike (np_random_multinomial pvals st1) (np_random_multinomial pvals st2).
Proof.
  intros Hsame. unfold np_random_multinomial. cbv zeta.
  destruct (negb _); [done|]. destruct (flt _ _); [done|].
  apply alike_bind; [by apply multinomial_trials_alike|].
  by intros [mnix dn] s1 s2 Hs.
Qed.

Lemma sample_alike (preds : list float64) (temperature : float64)
    (st1 st2 : RandomState) :
  same_stream st1 st2 →
  alike (sample preds temperature st1) (sample preds temperature st2).
Proof.
  intros Hsame. unfold sample. cbv zeta.
  apply alike_bind; [by apply np_random_multinomial_alike|].
  intros a s1 s2 Hs. cbn [fst snd]. by destruct (np_argmax a).
Qed.

(** *** The draw only moves the generator forward *)

Lemma inversion_loop_advanced (tests : nat) (n : Z) (p q qn : float64)
    (bound : Z) :
  ∀ (X : Z) (px U : float64) (st : RandomState) r,
    inversion_loop tests n p q qn bound X px U st = Ok r → advanced st r.2.
Proof.
  induction tests as [|tests IH]; intros X px U st r Hrun; [done|].
  cbn [inversion_loop] in Hrun. destruct (flt px U).
  - cbv zeta in Hrun. case_decide.
    + apply IH in Hrun.
      by eapply advanced_trans; [apply rk_double_advanced|].
    + by apply IH in Hrun.
  - injection Hrun as <-. apply advanced_refl.
Qed.

Lemma random_binomial_advanced (p : float64) (n : Z) (st : RandomState) r :
  random_binomial p n st = Ok r → advanced st r.2.
Proof.
  unfold random_binomial, random_binomial_inversion. cbv zeta.
  destruct (_ || _).
  { intros [= <-]. apply advanced_refl. }
  destruct (fle p _).
  - destruct (fle _ _); [|done]. intros Hrun.
    apply inversion_loop_advanced in Hrun.
    by eapply advanced_trans; [apply rk_double_advanced|].
  - destruct (fle _ _); [|done].
    destruct (inversion_loop _ _ _ _ _ _ _ _ _ _) as [x|e] eqn:Hrun; [|done].
    cbn [mbind result_bind]. intros [= <-]. cbn [snd].
    apply inversion_loop_advanced in Hrun.
    by eapply advanced_trans; [apply rk_double_advanced|].
Qed.

Lemma multinomial_trials_advanced (pix : list float64) :
  ∀ (j : nat) (remaining_p : float64) (dn : Z) (mnix : list Z)
    (st : RandomState) r,
    multinomial_trials pix j remaining_p dn mnix st = Ok r →
    advanced st r.2 ∧ length r.1.1 = length mnix.
Proof.
  induction pix as [|p pix IH]; intros j remaining_p dn mnix st r Hrun.
  - injection Hrun as <-. split; [apply advanced_refl|done].
  - cbn [multinomial_trials] in Hrun.
    destruct (random_binomial _ dn st) as [x|e] eqn:Hx; [|done].
    apply random_binomial_advanced in Hx.
    cbn [mbind result_bind] in Hrun. case_decide.
    + injection Hrun as <-. cbn [fst snd]. by rewrite length_insert.
    + apply IH in Hrun as [Hadv Hlen]. rewrite length_insert in Hlen.
      split; [by eapply advanced_trans|done].
Qed.

(** The array [np.random.multinomial(1, pvals, 1)] returns has one row,
    as long as [pvals]. *)
Lemma np_random_multinomial_shape (pvals : list float64) (st : RandomState) r :
  np_random_multinomial pvals st = Ok r →
  advanced st r.2 ∧ ∃ row, r.1 = [row] ∧ length row = length pvals.
Proof.
  unfold np_random_multinomial. cbv zeta.
  destruct (negb _); [done|]. destruct (flt _ _); [done|].
  destruct (multinomial_trials _ _ _ _ _ _) as [[[mnix dn] st']|e] eqn:Hrun;
    [|done].
  apply multinomial_trials_advanced in Hrun as [Hadv Hlen].
  cbn [fst snd] in Hadv, Hlen. rewrite length_replicate in Hlen.
  cbn [mbind result_bind]. intros [= <-]. cbn [fst snd].
  split; [done|]. eexists. split; [done|].
  case_decide; by rewrite ?length_insert.
Qed.

(** *** [np.argmax] *)

Lemma argmax_from_le (l : list Z) (i : nat) (best : Z) (besti : nat) :
  Forall (λ x, (x ≤ best)%Z) l → argmax_from l i best besti = besti.
Proof.
  revert i. induction l as [|x l IH]; intros i Hl; [done|].
  apply Forall_cons in Hl as [Hx Hl]. simpl.
  rewrite decide_False by lia. by apply IH.
Qed.

Lemma argmax_from_skip (a : nat) (zs : list Z) (i besti : nat) :
  Forall (λ x, (x ≤ 1)%Z) zs →
  argmax_from (replicate a 0%Z ++ 1%Z :: zs) i 0%Z besti = (i + a)%nat.
Proof.
  intros Hzs. revert i. induction a as [|a IH]; intros i; simpl.
  - rewrite argmax_from_le by done. lia.
  - rewrite IH. lia.
Qed.

Lemma argmax_from_lt (l : list Z) (i : nat) (best : Z) (besti : nat) :
  (besti < i)%nat → (argmax_from l i best besti < i + length l)%nat.
Proof.
  revert i best besti. induction l as [|x l IH]; intros i best besti Hi; simpl.
  - lia.
  - case_decide.
    + pose proof (IH (S i) x i). lia.
    + pose proof (IH (S i) best besti). lia.
Qed.

Lemma np_argmax_lt (a : list (list Z)) (k : nat) :
  np_argmax a = Ok k → (k < length (concat a))%nat.
Proof.
  unfold np_argmax. destruct (concat a) as [|x l]; [done|].
  intros [= <-]. pose proof (argmax_from_lt l 1 x 0). simpl. lia.
Qed.

Lemma np_argmax_one_hot (d k : nat) :
  (k < d)%nat → np_argmax [<[k := 1%Z]> (replicate d 0%Z)] = Ok k.
Proof.
  intros Hk. unfold np_argmax. simpl. rewrite app_nil_r.
  rewrite insert_replicate_lt by done.
  assert (Hzs : Forall (λ x, (x ≤ 1)%Z) (replicate (d - S k) 0%Z)).
  { apply Forall_replicate. lia. }
  destruct k as [|k]; simpl.
  - by rewrite argmax_from_le.
  - by rewrite argmax_from_skip.
Qed.

Lemma sample_preds_length (preds : list float64) (temperature : float64) :
  length (sample_preds preds temperature) = length preds.
Proof. unfold sample_preds. by rewrite !length_fmap. Qed.

Lemma sample_lt (preds : list float64) (temperature : float64)
    (st : RandomState) (k : nat) (st' : RandomState) :
  sample preds temperature st = Ok (k, st') →
  (k < length preds)%nat ∧ advanced st st'.
Proof.
  unfold sample. cbv zeta.
  destruct (np_random_multinomial _ st) as [[a st1]|e] eqn:Hrun; [|done].
  cbn [mbind result_bind fst snd].
  destruct (np_argmax a) as [k'|] eqn:Hk; [|done].
  cbn [mbind result_bind]. intros [= <- <-].
  apply np_argmax_lt in Hk.
  apply np_random_multinomial_shape in Hrun as (Hadv & row & Ha & Hlen).
  cbn [fst snd] in Ha, Hadv. subst a. simpl in Hk.
  rewrite app_nil_r, Hlen, sample_preds_length in Hk. done.
Qed.

(** *** The binomial draw with one experiment, in the model's arithmetic *)

Lemma to_long_1 : to_long (Finite 1) = 1%Z.
Proof.
  unfold to_long. change (2 ^ 63)%Z with 9223372036854775808%Z.
  rewrite decide_True by lra. rewrite decide_True by lra.
  apply (ZfloorZ 1).
Qed.

Lemma inversion_bound_1 (p q : R) :
  0 <= p → 0 <= q →
  to_long (fmin (Finite 1)
             (fadd (fmul (Finite 1) (Finite p))
                (fmul (Finite 10)
                   (fsqrt (fadd (fmul (fmul (Finite 1) (Finite p)) (Finite q))
                             (Finite 1))))))
    = 1%Z.
Proof.
  intros Hp Hq. cbn [fmul fadd]. unfold fsqrt.
  assert (Hx : 1 <= 1 * p * q + 1).
  { pose proof (Rmult_le_pos p q Hp Hq). lra. }
  rewrite decide_False by lra. cbn [fmul fadd].
  assert (Hs : 1 <= sqrt (1 * p * q + 1)).
  { rewrite <- sqrt_1 at 1. apply sqrt_le_1_alt. lra. }
  unfold fmin, flt. rewrite bool_decide_eq_true_2 by lra.
  apply to_long_1.
Qed.

(** With one experiment and a probability [p < 1] the inversion routine
    draws one variate [U] and returns 1 exactly when [U > 1 - p]. *)
Lemma random_binomial_inversion_real (p : R) (st : RandomState) :
  p < 1 →
  random_binomial_inversion 1 (Finite p) st
    = Ok (if decide (1 - p < (rk_double st).1) then 1%Z else 0%Z,
          (rk_double st).2).
Proof.
  intros Hp. unfold random_binomial_inversion. cbv zeta.
  destruct (rk_double_spec st) as [[HU0 HU1] _].
  set (U := (rk_double st).1) in *. set (st1 := (rk_double st).2).
  change (Z.to_nat 1 + 1)%nat with 2%nat.
  set (bound := to_long _).
  assert (Hbound : 0 <= p → bound = 1%Z).
  { intros Hp0. unfold bound. cbn [fsub fadd fneg].
    apply inversion_bound_1; lra. }
  clearbody bound.
  assert (Hqn : np_exp (fmul (Finite 1) (np_log (fsub (Finite 1) (Finite p))))
                = Finite (1 - p)).
  { cbn [fsub fadd fneg]. unfold np_log. rewrite !decide_False by lra.
    cbn [fmul np_exp]. f_equal. rewrite Rmult_1_l, exp_ln by lra. lra. }
  rewrite Hqn. cbn [inversion_loop flt].
  destruct (decide (1 - p < U)) as [Hlt|Hge].
  - rewrite bool_decide_eq_true_2 by done. cbv zeta.
    rewrite Hbound by lra. rewrite decide_False by lia.
    cbn [fsub fadd fneg fmul]. change (1 - (0 + 1) + 1)%Z with 1%Z.
    change (0 + 1)%Z with 1%Z. unfold fdiv.
    rewrite decide_False by lra. unfold flt.
    rewrite bool_decide_eq_false_2; [done|].
    assert (Hpx : 1 * p * (1 - p) / (1 * (1 + - p)) = p) by (field; lra).
    rewrite Hpx. lra.
  - by rewrite bool_decide_eq_false_2 by done.
Qed.

(** In the arithmetic of the model a call with one experiment returns 0
    or 1 on its first variate: the loop is left before the routine would
    draw a second one. *)
Lemma random_binomial_inversion_returns (p : float64) (st : RandomState) :
  ∃ X, random_binomial_inversion 1 p st = Ok (X, (rk_double st).2) ∧
       (X = 0 ∨ X = 1)%Z.
Proof.
  destruct p as [p| | |].
  - destruct (decide (p < 1)) as [Hp|Hp].
    { rewrite random_binomial_inversion_real by done.
      eexists. split; [done|]. case_decide; lia. }
    unfold random_binomial_inversion. cbv zeta.
    destruct (rk_double_spec st) as [[HU0 HU1] _].
    set (U := (rk_double st).1) in *. set (st1 := (rk_double st).2).
    change (Z.to_nat 1 + 1)%nat with 2%nat.
    set (bound := to_long _).
    assert (Hbound : p = 1 → bound = 1%Z).
    { intros ->. unfold bound. cbn [fsub fadd fneg].
      apply inversion_bound_1; lra. }
    clearbody bound.
    destruct (decide (p = 1)) as [->|Hne].
    + assert (Hqn : np_exp (fmul (Finite 1) (np_log (fsub (Finite 1) (Finite 1))))
                    = Finite 0).
      { cbn [fsub fadd fneg]. unfold np_log.
        rewrite decide_False by lra. rewrite decide_True by lra.
        unfold fmul. rewrite decide_False by lra.
        by rewrite decide_True by lra. }
      rewrite Hqn. cbn [inversion_loop flt].
      destruct (decide (0 < U)) as [HU|HU].
      * rewrite bool_decide_eq_true_2 by done. cbv zeta.
        rewrite Hbound by done. rewrite decide_False by lia.
        cbn [fsub fadd fneg fmul]. unfold fdiv.
        rewrite decide_True by lra. rewrite decide_True by lra.
        cbn [flt]. exists 1%Z. split; [done|lia].
      * rewrite bool_decide_eq_false_2 by done. exists 0%Z. split; [done|lia].
    + assert (Hqn : np_exp (fmul (Finite 1) (np_log (fsub (Finite 1) (Finite p))))
                    = NaN).
      { cbn [fsub fadd fneg]. unfold np_log. by rewrite decide_True by lra. }
      rewrite Hqn. cbn [inversion_loop flt]. exists 0%Z. split; [done|lia].
  - exists 0%Z. split; [done|lia].
  - unfold random_binomial_inversion. cbv zeta. cbn [fsub fadd fneg np_log].
    assert (Hmul : fmul (Finite 1) PInf = PInf).
    { unfold fmul. rewrite decide_False by lra. by rewrite decide_True by lra. }
    rewrite !Hmul. cbn [np_exp]. change (Z.to_nat 1 + 1)%nat with 2%nat.
    cbn [inversion_loop flt]. exists 0%Z. split; [done|lia].
  - exists 0%Z. split; [done|lia].
Qed.

Lemma random_binomial_0 (x : R) (st : RandomState) :
  x = 0 → random_binomial (Finite x) 1 st = Ok (0%Z, st).
Proof.
  intros ->. unfold random_binomial, feq.
  by rewrite (bool_decide_eq_true_2 (0 = 0)), orb_true_r.
Qed.

Lemma random_binomial_small (p : R) (st : RandomState) :
  0 < p <= 1 / 2 →
  random_binomial (Finite p) 1 st
    = Ok (if decide (1 - p < (rk_double st).1) then 1%Z else 0%Z,
          (rk_double st).2).
Proof.
  intros Hp. unfold random_binomial, feq, fle. cbn [fmul].
  rewrite (bool_decide_eq_false_2 (1 = 0)%Z) by lia.
  rewrite (bool_decide_eq_false_2 (p = 0)) by lra. cbn [orb].
  rewrite (bool_decide_eq_true_2 (p <= 1 / 2)) by lra.
  rewrite (bool_decide_eq_true_2 (p * 1 <= 30)) by lra.
  apply random_binomial_inversion_real. lra.
Qed.

Lemma random_binomial_large (p : R) (st : RandomState) :
  1 / 2 < p <= 1 →
  random_binomial (Finite p) 1 st
    = Ok (if decide (p < (rk_double st).1) then 0%Z else 1%Z,
          (rk_double st).2).
Proof.
  intros Hp. unfold random_binomial, feq, fle. cbn [fsub fadd fneg fmul].
  rewrite (bool_decide_eq_false_2 (1 = 0)%Z) by lia.
  rewrite (bool_decide_eq_false_2 (p = 0)) by lra. cbn [orb].
  rewrite (bool_decide_eq_false_2 (p <= 1 / 2)) by lra.
  rewrite (bool_decide_eq_true_2 ((1 + - p) * 1 <= 30)) by lra.
  rewrite random_binomial_inversion_real by lra.
  cbn [mbind result_bind fst snd]. do 2 f_equal.
  destruct (decide (p < _)); [rewrite decide_True by lra|
                               rewrite decide_False by lra]; done.
Qed.

(** *** The checks of [multinomial] *)

Lemma kahan_loop_Finite (l : list R) :
  ∀ s c : R, c = 0 →
    kahan_loop (Finite <$> l) (Finite s) (Finite c) = Finite (s + Rsum l).
Proof.
  induction l as [|x l IH]; intros s c ->.
  - simpl. rewrite Rsum_nil. f_equal. lra.
  - rewrite fmap_cons. cbn [kahan_loop fsub fadd fneg].
    rewrite IH by lra. rewrite Rsum_cons. f_equal. lra.
Qed.

Lemma kahan_sum_Finite (x : R) (l : list R) (n : nat) :
  kahan_sum (Finite <$> (x :: l)) n = Finite (x + Rsum (take (n - 1) l)).
Proof.
  rewrite fmap_cons. unfold kahan_sum. rewrite <- fmap_take.
  by apply kahan_loop_Finite.
Qed.

Lemma Rsum_take_le (l : list R) (n : nat) :
  Forall (λ x, 0 <= x) l → Rsum (take n l) <= Rsum l.
Proof.
  intros Hl. revert n. induction Hl as [|x l Hx Hl IH]; intros [|n]; simpl;
    rewrite ?Rsum_nil, ?Rsum_cons; try lra.
  - pose proof (Rsum_nonneg l Hl). lra.
  - specialize (IH n). lra.
Qed.

Lemma pvals_bounded_Finite (v : list R) :
  Forall (λ x, 0 <= x <= 1) v →
  forallb (λ x, fle (Finite 0) x && fle x (Finite 1)) (Finite <$> v) = true.
Proof.
  induction 1 as [|x v Hx Hv IH]; [done|].
  rewrite fmap_cons.
  set (f := λ x : float64, fle (Finite 0) x && fle x (Finite 1)) in *.
  change (f (Finite x) && forallb f (Finite <$> v) = true).
  rewrite IH. unfold f, fle. by rewrite !bool_decide_eq_true_2 by lra.
Qed.

(** A vector of probabilities whose sum is 1 passes both checks. *)
Lemma multinomial_checks (v : list R) :
  Forall (λ x, 0 <= x <= 1) v → Rsum v <= 1 →
  negb (forallb (λ x, fle (Finite 0) x && fle x (Finite 1)) (Finite <$> v))
    = false ∧
  flt (Finite (1 + 1 / 10 ^ 12)) (kahan_sum (Finite <$> v) (length v - 1))
    = false.
Proof.
  intros Hv Hsum. rewrite pvals_bounded_Finite by done. split; [done|].
  assert (Heps : 0 < 1 / 10 ^ 12).
  { apply Rdiv_lt_0_compat; [lra|]. apply pow_lt. lra. }
  set (eps := 1 / 10 ^ 12) in *. clearbody eps.
  destruct v as [|x v].
  { apply bool_decide_eq_false_2. lra. }
  rewrite kahan_sum_Finite. cbn [flt]. apply bool_decide_eq_false_2.
  apply Forall_cons in Hv as [Hx Hv]. rewrite Rsum_cons in Hsum.
  assert (Rsum (take (length (x :: v) - 1 - 1) v) <= Rsum v).
  { apply Rsum_take_le. eapply Forall_impl; [exact Hv|].
    intros y Hy. simpl in Hy. lra. }
  lra.
Qed.

(** *** One-hot inputs *)


Lemma Rsum_replicate_0 (d : nat) : Rsum (replicate d 0) = 0.
Proof.
  induction d as [|d IH]; simpl; [apply Rsum_nil|].
  rewrite Rsum_cons, IH. lra.
Qed.

Lemma Rsum_one_hot (d k : nat) :
  (k < d)%nat → Rsum (<[k := 1]> (replicate d 0)) = 1.
Proof.
  intros Hk. rewrite insert_replicate_lt by done.
  rewrite Rsum_app, Rsum_cons, !Rsum_replicate_0. lra.
Qed.

(** The pipeline of [sample] maps a one-hot vector to itself: the
    logarithm of the zero entries is [-inf], which stays [-inf] when
    divided by a positive temperature and is exponentiated back to 0. *)
Lemma sample_preds_one_hot (d k : nat) (T : R) :
  (k < d)%nat → 0 < T →
  sample_preds (Finite <$> <[k := 1]> (replicate d 0)) (Finite T)
    = Finite <$> <[k := 1]> (replicate d 0).
Proof.
  intros Hk HT. unfold sample_preds. cbv zeta.
  assert (Hexp : np_exp <$> ((λ x, fdiv (np_log x) (Finite T))
                   <$> (Finite <$> <[k := 1]> (replicate d 0)))
                 = Finite <$> <[k := 1]> (replicate d 0)).
  { rewrite !list_fmap_insert, !fmap_replicate. simpl.
    rewrite (decide_False (P := 1 < 0)) by lra.
    rewrite (decide_False (P := 1 = 0)) by lra.
    rewrite (decide_False (P := 0 < 0)) by lra.
    rewrite (decide_True (P := 0 = 0)) by done. simpl.
    rewrite !decide_False by lra. simpl.
    rewrite ln_1. unfold Rdiv. by rewrite Rmult_0_l, exp_0. }
  rewrite Hexp, np_sum_Finite, Rsum_one_hot by done.
  rewrite (fmap_Finite_commute _ (λ x, x) (λ _, True));
    [by rewrite list_fmap_id| |by apply Forall_true].
  intros x _. simpl. rewrite decide_False by lra. f_equal. lra.
Qed.


(** A trial against the probability 0 fails without a variate; a trial
    against the probability 1 succeeds, on any variate. *)
Lemma multinomial_trials_zeros (a d : nat) (st : RandomState) :
  ∀ (j : nat) (s : R), s = 1 →
    multinomial_trials (Finite <$> replicate a 0) j (Finite s) 1
      (replicate d 0%Z) st
    = Ok (replicate d 0%Z, 1%Z, st).
Proof.
  induction a as [|a IH]; intros j s ->; [done|].
  cbn [replicate fmap list_fmap multinomial_trials].
  unfold fdiv. rewrite decide_False by lra.
  rewrite random_binomial_0 by lra. cbn [mbind result_bind fst snd].
  rewrite decide_False by lia. rewrite insert_replicate.
  change (1 - 0)%Z with 1%Z. cbn [fsub fadd fneg]. apply IH. lra.
Qed.

Lemma multinomial_trials_one (a d : nat) (rest : list float64)
    (st : RandomState) :
  ∀ (j : nat) (s : R), s = 1 →
    multinomial_trials ((Finite <$> replicate a 0) ++ Finite 1 :: rest) j
      (Finite s) 1 (replicate d 0%Z) st
    = Ok (<[(j + a)%nat := 1%Z]> (replicate d 0%Z), 0%Z, (rk_double st).2).
Proof.
  induction a as [|a IH]; intros j s ->.
  - cbn [replicate fmap list_fmap app multinomial_trials].
    unfold fdiv. rewrite decide_False by lra.
    rewrite random_binomial_large by lra.
    destruct (rk_double_spec st) as [[_ HU] _].
    rewrite decide_False by lra. cbn [mbind result_bind fst snd].
    rewrite decide_True by lia. by rewrite Nat.add_0_r.
  - cbn [replicate fmap list_fmap app multinomial_trials].
    unfold fdiv. rewrite decide_False by lra.
    rewrite random_binomial_0 by lra. cbn [mbind result_bind fst snd].
    rewrite decide_False by lia. rewrite insert_replicate.
    change (1 - 0)%Z with 1%Z. cbn [fsub fadd fneg].
    rewrite IH by lra. by rewrite Nat.add_succ_r.
Qed.

(** On a one-hot vector and a positive temperature [sample] returns the
    index of the 1, from every generator state; it draws one variate,
    for the trial against the probability 1, unless the 1 is the last
    entry. *)
Lemma sample_one_hot_run (d k : nat) (T : R) (st : RandomState) :
  (k < d)%nat → 0 < T →
  sample (Finite <$> <[k := 1]> (replicate d 0)) (Finite T) st
    = Ok (k, if decide (k = d - 1)%nat then st else (rk_double st).2) ∧
  advanced st (if decide (k = d - 1)%nat then st else (rk_double st).2).
Proof.
  intros Hk HT. split; [|case_decide;
                          [apply advanced_refl|apply rk_double_advanced]].
  unfold sample. cbv zeta.
  rewrite sample_preds_one_hot by done.
  unfold np_random_multinomial. cbv zeta.
  rewrite length_fmap, length_insert, length_replicate.
  destruct (multinomial_checks (<[k := 1]> (replicate d 0))) as [Hc1 Hc2].
  { apply Forall_insert; [|lra]. apply Forall_replicate. lra. }
  { rewrite Rsum_one_hot by done. lra. }
  rewrite length_insert, length_replicate in Hc2. rewrite Hc1, Hc2.
  rewrite <- fmap_take, insert_replicate_lt by done.
  destruct (decide (k = d - 1)%nat) as [->|Hne].
  - replace (d - S (d - 1))%nat with 0%nat by lia. cbn [replicate].
    rewrite take_app_length'
      by (rewrite length_replicate; lia).
    rewrite multinomial_trials_zeros by done.
    cbn [mbind result_bind fst snd]. rewrite decide_True by lia.
    rewrite (np_argmax_one_hot d (d - 1)) by lia. done.
  - rewrite take_app_ge by (rewrite length_replicate; lia).
    rewrite length_replicate.
    replace (d - 1 - k)%nat with (S (d - 2 - k)) by lia.
    rewrite firstn_cons, fmap_app, fmap_cons.
    rewrite multinomial_trials_one by done.
    cbn [mbind result_bind fst snd]. rewrite decide_False by lia.
    rewrite Nat.add_0_l, (np_argmax_one_hot d k) by lia. done.
Qed.

(** *** A draw that depends on the variate *)

Lemma fdiv_Finite (x y : R) :
  y ≠ 0 → fdiv (Finite x) (Finite y) = Finite (x / y).
Proof. intros Hy. unfold fdiv. by rewrite decide_False. Qed.

Lemma np_log_pos (x : R) : 0 < x → np_log (Finite x) = Finite (ln x).
Proof. intros Hx. unfold np_log. by rewrite !decide_False by lra. Qed.

Lemma sample_preds_half :
  sample_preds [Finite (1 / 2); Finite (1 / 2)] (Finite 1)
    = [Finite (1 / 2); Finite (1 / 2)].
Proof.
  unfold sample_preds. cbv zeta. cbn [fmap list_fmap].
  rewrite !np_log_pos by lra. rewrite !fdiv_Finite by lra.
  cbn [np_exp np_sum foldr fadd].
  pose proof (exp_pos (ln (1 / 2) / 1)) as He.
  set (e := exp (ln (1 / 2) / 1)) in *.
  rewrite !fdiv_Finite by lra.
  assert (E2 : e / (e + (e + 0)) = 1 / 2) by (field; lra).
  by rewrite E2.
Qed.

Lemma sample_half (st : RandomState) :
  sample [Finite (1 / 2); Finite (1 / 2)] (Finite 1) st
    = Ok (if decide (1 / 2 < (rk_double st).1) then 0%nat else 1%nat,
          (rk_double st).2).
Proof.
  unfold sample. cbv zeta. rewrite sample_preds_half.
  unfold np_random_multinomial. cbv zeta.
  destruct (multinomial_checks [1 / 2; 1 / 2]) as [Hc1 Hc2].
  { repeat constructor; lra. }
  { rewrite !Rsum_cons, Rsum_nil. lra. }
  change (Finite <$> [1 / 2; 1 / 2])
    with [Finite (1 / 2); Finite (1 / 2)] in Hc1, Hc2.
  change (length [1 / 2; 1 / 2])
    with (length [Finite (1 / 2); Finite (1 / 2)]) in Hc2.
  rewrite Hc1, Hc2. cbn [length Nat.sub take multinomial_trials].
  unfold fdiv. rewrite decide_False by lra.
  rewrite random_binomial_small by lra.
  cbn [mbind result_bind fst snd replicate].
  destruct (decide (1 / 2 < (rk_double st).1)) as [Hlt|Hge].
  - rewrite (decide_True (P := 1 - 1 / 2 / 1 < _)) by lra.
    rewrite decide_True by lia. cbn [mbind result_bind fst snd].
    by rewrite decide_False by lia.
  - rewrite (decide_False (P := 1 - 1 / 2 / 1 < _)) by lra.
    rewrite decide_False by lia. cbn [mbind result_bind fst snd].
    by rewrite decide_True by lia.
Qed.

Lemma alike_fst {A} (r1 r2 : result (A * RandomState)) :
  alike r1 r2 → fst <$> r1 = fst <$> r2.
Proof.
  destruct r1 as [[a1 s1]|e1], r2 as [[a2 s2]|e2]; simpl; try done.
  - by intros [-> _].
  - by intros ->.
Qed.

Lemma rk_double_0 (f : nat → Z) (n : nat) :
  f n = 0%Z →
  rk_double (mkRandomState f n) = (0, mkRandomState f (S n)).
Proof.
  intros Hf. unfold rk_double. cbn [rk_stream rk_pos]. rewrite Hf.
  f_equal. change (0 `mod` 2 ^ 53)%Z with 0%Z. lra.
Qed.

Lemma rk_double_three_quarters (f : nat → Z) (n : nat) :
  f n = (3 * 2 ^ 51)%Z →
  rk_double (mkRandomState f n) = (3 / 4, mkRandomState f (S n)).
Proof.
  intros Hf. unfold rk_double. cbn [rk_stream rk_pos]. rewrite Hf.
  f_equal. change ((3 * 2 ^ 51) `mod` 2 ^ 53)%Z with 6755399441055744%Z.
  change (2 ^ 53)%Z with 9007199254740992%Z. lra.
Qed.

(** C2. On a one-hot vector (1 at index [k], 0 elsewhere) and a positive
    temperature, [sample] returns [k] whatever the generator delivers. *)
Theorem sample_one_hot (d k : nat) (T : R) (st : RandomState) :
  (k < d)%nat → 0 < T →
  ∃ st',
    sample (Finite <$> <[k := 1]> (replicate d 0)) (Finite T) st = Ok (k, st').
Proof.
  intros Hk HT.
  destruct (sample_one_hot_run d k T st Hk HT) as [Hrun _].
  eexists. exact Hrun.
Qed.

Lemma sample_one_hot_witness :
  ∃ st',
    sample (Finite <$> [0; 1; 0]) (Finite (1 / 5)) (mkRandomState (λ _, 7%Z) 0)
      = Ok (1%nat, st').
Proof.
  apply (sample_one_hot 3 1 (1 / 5) (mkRandomState (λ _, 7%Z) 0)); [lia|lra].
Defined.

(** C9. Whenever [sample] returns an index, the index is a position of
    [preds], whatever the vector, the temperature and the state of the
    generator; so when [preds] has the length of the vocabulary the
    lookup [idx2char[next_index]] of the generation loop succeeds. (A call
    of [sample] can also end in the [ValueError] of
    [np.random.multinomial]; no index is returned then.) *)
Theorem sample_index_in_range (preds : list float64) (temperature : float64)
    (st : RandomState) (k : nat) (st' : RandomState) :
  sample preds temperature st = Ok (k, st') →
  (k < length preds)%nat ∧
  ∀ text : list ascii,
    length (chars text) = length preds →
    ∃ c, dict_get (idx2char text) k = Ok c ∧ c ∈ text.
Proof.
  intros Hrun. apply sample_lt in Hrun as [Hk _]. split; [done|].
  intros text Hlen.
  destruct (lookup_lt_is_Some_2 (chars text) k) as [c Hc]; [lia|].
  exists c. split; [by apply dict_get_Ok, idx2char_lookup|].
  by eapply elem_of_chars, list_elem_of_lookup_2.
Qed.

Lemma sample_index_in_range_witness :
  sample [Finite (1 / 2); Finite (1 / 2)] (Finite 1)
         (mkRandomState (λ _, 0%Z) 0)
    = Ok (1%nat, mkRandomState (λ _, 0%Z) 1) ∧
  (1 < length [Finite (1 / 2); Finite (1 / 2)])%nat.
Proof.
  assert (Hrun : sample [Finite (1 / 2); Finite (1 / 2)] (Finite 1)
                   (mkRandomState (λ _, 0%Z) 0)
                 = Ok (1%nat, mkRandomState (λ _, 0%Z) 1)).
  { rewrite sample_half, rk_double_0 by done. cbn [fst snd].
    by rewrite decide_False by lra. }
  split; [exact Hrun|].
  exact (proj1 (sample_index_in_range _ _ _ _ _ Hrun)).
Defined.

(** C7, as the code has it. [sample] is a function of its arguments and
    of the state of numpy's process-wide generator: calls with the same
    arguments on generator states that will deliver the same variates end
    alike (same index or same exception). A call that returns leaves the
    stream of the generator as it is and never moves its position
    back. *)
Theorem sample_generator_frame :
  (∀ preds temperature st1 st2,
     same_stream st1 st2 →
     fst <$> sample preds temperature st1
       = fst <$> sample preds temperature st2) ∧
  (∀ preds temperature st k st',
     sample preds temperature st = Ok (k, st') →
     rk_stream st' = rk_stream st ∧ (rk_pos st ≤ rk_pos st')%nat).
Proof.
  split.
  - intros preds T st1 st2 Hsame. by apply alike_fst, sample_alike.
  - intros preds T st k st' Hrun. by apply sample_lt in Hrun as [_ Hadv].
Qed.

Lemma sample_generator_frame_witness :
  same_stream (mkRandomState (λ _, 0%Z) 0) (mkRandomState (λ _, 0%Z) 5) ∧
  fst <$> sample [Finite (1 / 2); Finite (1 / 2)] (Finite 1)
            (mkRandomState (λ _, 0%Z) 0)
    = fst <$> sample [Finite (1 / 2); Finite (1 / 2)] (Finite 1)
                (mkRandomState (λ _, 0%Z) 5).
Proof.
  assert (Hsame : same_stream (mkRandomState (λ _, 0%Z) 0)
                    (mkRandomState (λ _, 0%Z) 5)) by done.
  split; [done|]. by apply (proj1 sample_generator_frame).
Defined.

(** C7, as the specification states it, fails: [sample] reads and
    advances the generator. With the same arguments [[0.5, 0.5]] and
    temperature 1 it returns index 1 from a generator about to deliver
    the variate 0 and index 0 from one about to deliver 0.75 (the trial
    of category 0 succeeds when the variate exceeds [exp(log(0.5))],
    which is 0.5 up to rounding); on the one-hot vector [[1, 0]], where
    the result does not depend on the variate, the call still consumes
    one. Each of the three calls leaves the generator one position
    further. *)
Lemma sample_depends_on_generator :
  sample [Finite (1 / 2); Finite (1 / 2)] (Finite 1)
         (mkRandomState (λ _, 0%Z) 0)
    = Ok (1%nat, mkRandomState (λ _, 0%Z) 1) ∧
  sample [Finite (1 / 2); Finite (1 / 2)] (Finite 1)
         (mkRandomState (λ _, (3 * 2 ^ 51)%Z) 0)
    = Ok (0%nat, mkRandomState (λ _, (3 * 2 ^ 51)%Z) 1) ∧
  sample [Finite 1; Finite 0] (Finite 1) (mkRandomState (λ _, 0%Z) 0)
    = Ok (0%nat, mkRandomState (λ _, 0%Z) 1).
Proof.
  split; [|split].
  - rewrite sample_half, rk_double_0 by done. cbn [fst snd].
    by rewrite decide_False by lra.
  - rewrite sample_half, rk_double_three_quarters by done. cbn [fst snd].
    by rewrite decide_True by lra.
  - destruct (sample_one_hot_run 2 0 1 (mkRandomState (λ _, 0%Z) 0))
      as [Hrun _]; [lia|lra|].
    rewrite decide_False in Hrun by lia. rewrite rk_double_0 in Hrun by done.
    exact Hrun.
Qed.

End sampler.

(** ** Parameter counts (cells 13 and 14) *)

Section parameters.
Local Open Scope Z_scope.

(** C10. On natural numbers [num_lstm_params(d, n) = 4 (d n + n n + n)]
    and [num_fc_params(d, n) = d n + n]; the three calls of cell 14, with
    the 59 characters of the vocabulary, give 96256, 16512 and 7611, the
    counts of the model summary, 120379 parameters in all. *)
Theorem num_params_formulas :
  (∀ d n : nat,
     num_lstm_params (Z.of_nat d) (Z.of_nat n)
       = Z.of_nat (4 * (d * n + n * n + n)) ∧
     num_fc_params (Z.of_nat d) (Z.of_nat n) = Z.of_nat (d * n + n)) ∧
  num_lstm_params 59 128 = 96256 ∧
  num_fc_params 128 128 = 16512 ∧
  num_fc_params 128 59 = 7611 ∧
  num_lstm_params 59 128 + num_fc_params 128 128 + num_fc_params 128 59
    = 120379.
Proof.
  split; [|done].
  intros d n. unfold num_lstm_params, num_fc_params. split; lia.
Qed.

End parameters.

(** * Further properties of the notebook's code *)

(** ** The vocabulary (cell 4) and the lowercased corpus (cell 2) *)

Section vocabulary_more.
Local Close Scope Z_scope.

(** X2. The vocabulary and both dictionaries depend on the set of characters
    of the corpus only, not on their order or their number of
    occurrences. *)
Theorem vocabulary_of_character_set (text1 text2 : list ascii) :
  (∀ c, c ∈ text1 ↔ c ∈ text2) →
  chars text1 = chars text2 ∧
  char2idx text1 = char2idx text2 ∧
  idx2char text1 = idx2char text2.
Proof.
  intros Hsame.
  assert (Hset : (list_to_set text1 : gset ascii) = list_to_set text2).
  { apply set_eq. intros c. rewrite !elem_of_list_to_set. apply Hsame. }
  assert (Hchars : chars text1 = chars text2) by (unfold chars; by rewrite Hset).
  unfold char2idx, idx2char. by rewrite Hchars.
Qed.

Lemma vocabulary_of_character_set_witness :
  chars (list_ascii_of_string "abca") = chars (list_ascii_of_string "cba").
Proof.
  apply (vocabulary_of_character_set (list_ascii_of_string "abca")
           (list_ascii_of_string "cba")).
  intros c. simpl. rewrite !elem_of_cons, !elem_of_nil. tauto.
Defined.

Lemma StronglySorted_lookup_le {A} (R : relation A) (l : list A) (i j : nat) (x y : A) :
  StronglySorted R l → l !! i = Some x → l !! j = Some y → i < j → R x y.
Proof.
  intros Hl. revert i j. induction Hl as [|z l Hl IH Hz]; intros i j Hi Hj Hij.
  - done.
  - destruct j as [|j]; [lia|]. destruct i as [|i]; simpl in *.
    + injection Hi as <-.
      eapply (proj1 (Forall_forall _ _) Hz), list_elem_of_lookup_2, Hj.
    + eapply IH; eauto. lia.
Qed.

Lemma chars_increasing (text : list ascii) (i j : nat) (c1 c2 : ascii) :
  chars text !! i = Some c1 → chars text !! j = Some c2 → i < j →
  nat_of_ascii c1 < nat_of_ascii c2.
Proof.
  intros Hi Hj Hij.
  pose proof (StronglySorted_lookup_le char_le _ i j c1 c2
                (chars_sorted text) Hi Hj Hij) as Hle.
  unfold char_le in Hle.
  assert (Hne : c1 ≠ c2).
  { intros ->. pose proof (NoDup_lookup _ i j c2 (NoDup_chars text) Hi Hj). lia. }
  assert (nat_of_ascii c1 ≠ nat_of_ascii c2); [|lia].
  intros Heq. apply Hne.
  rewrite <- (ascii_nat_embedding c1), <- (ascii_nat_embedding c2).
  by rewrite Heq.
Qed.

(** X3. [char2idx] numbers the characters in the order of their byte values:
    a character has the smaller index exactly when it has the smaller
    byte. *)
Theorem char2idx_monotone (text : list ascii) (c1 c2 : ascii) (i1 i2 : nat) :
  char2idx text !! c1 = Some i1 → char2idx text !! c2 = Some i2 →
  (i1 < i2 ↔ nat_of_ascii c1 < nat_of_ascii c2).
Proof.
  intros H1 H2. apply char2idx_lookup in H1, H2. split.
  - intros Hlt. by eapply chars_increasing.
  - intros Hlt. destruct (Nat.lt_trichotomy i1 i2) as [?|[->|Hgt]]; [done|..].
    + rewrite H1 in H2. injection H2 as ->. lia.
    + pose proof (chars_increasing text i2 i1 c2 c1 H2 H1 Hgt). lia.
Qed.

Lemma char2idx_monotone_witness :
  char2idx (list_ascii_of_string "the cat") !! "a"%char = Some 1 ∧
  char2idx (list_ascii_of_string "the cat") !! "t"%char = Some 5 ∧
  (1 < 5 ↔ nat_of_ascii "a" < nat_of_ascii "t").
Proof.
  assert (H1 : char2idx (list_ascii_of_string "the cat") !! "a"%char = Some 1)
    by (by vm_compute).
  assert (H2 : char2idx (list_ascii_of_string "the cat") !! "t"%char = Some 5)
    by (by vm_compute).
  split; [done|]. split; [done|].
  exact (char2idx_monotone _ _ _ _ _ H1 H2).
Defined.

Global Instance nat_of_ascii_inj : Inj (=) (=) nat_of_ascii.
Proof.
  intros a b Hab.
  rewrite <- (ascii_nat_embedding a), <- (ascii_nat_embedding b).
  by rewrite Hab.
Qed.

(** X4. The vocabulary is never larger than the corpus nor than the 256 byte
    values, and it is empty exactly for the empty corpus. *)
Theorem vocabulary_size (text : list ascii) :
  length (chars text) ≤ length text ∧
  length (chars text) ≤ 256 ∧
  (chars text = [] ↔ text = []).
Proof.
  split_and!.
  - apply submseteq_length, NoDup_submseteq; [apply NoDup_chars|].
    intros c. apply elem_of_chars.
  - assert (H : length (nat_of_ascii <$> chars text) ≤ length (seq 0 256)).
    { apply submseteq_length, NoDup_submseteq.
      - apply NoDup_fmap; [apply _|apply NoDup_chars].
      - intros n Hn. apply list_elem_of_fmap in Hn as (c & -> & _).
        apply elem_of_seq. pose proof (nat_ascii_bounded c). lia. }
    by rewrite length_fmap, length_seq in H.
  - split.
    + intros Hnil. destruct text as [|c text]; [done|].
      assert (Hc : c ∈ chars (c :: text)) by (apply elem_of_chars; by left).
      rewrite Hnil in Hc. by apply elem_of_nil in Hc.
    + intros ->. destruct (chars []) as [|c l] eqn:E; [done|].
      assert (Hc : c ∈ chars []) by (rewrite E; by left).
      apply elem_of_chars in Hc. by apply elem_of_nil in Hc.
Qed.

Lemma py_lower_char_not_upper (c : ascii) : ¬ is_upper (py_lower_char c).
Proof.
  unfold py_lower_char. case_decide as Hc; [|done].
  unfold is_upper in *. rewrite nat_ascii_embedding by lia. lia.
Qed.

Lemma py_lower_char_fixed (c : ascii) : ¬ is_upper c → py_lower_char c = c.
Proof. intros Hc. unfold py_lower_char. by rewrite decide_False. Qed.

(** X1. Lowercasing keeps the length of the corpus, leaves the bytes other
    than [A .. Z] where they are and is idempotent; the lowercased corpus
    holds no uppercase letter, so that [char2idx] raises [KeyError] on
    each of them. *)
Theorem py_lower_corpus (raw : list ascii) :
  length (py_lower raw) = length raw ∧
  py_lower (py_lower raw) = py_lower raw ∧
  (∀ i c, raw !! i = Some c → ¬ is_upper c → py_lower raw !! i = Some c) ∧
  (∀ c, is_upper c →
        (c ∉ py_lower raw) ∧
        dict_get (char2idx (py_lower raw)) c = Raise KeyError).
Proof.
  assert (Hno : ∀ c, is_upper c → c ∉ py_lower raw).
  { intros c Hc Hin. unfold py_lower in Hin.
    apply list_elem_of_fmap in Hin as (c' & -> & _).
    by apply (py_lower_char_not_upper c'). }
  split_and!.
  - unfold py_lower. apply length_fmap.
  - unfold py_lower. rewrite <- list_fmap_compose.
    apply list_fmap_ext. intros i c _. simpl.
    apply py_lower_char_fixed, py_lower_char_not_upper.
  - intros i c Hi Hc. unfold py_lower. rewrite list_lookup_fmap, Hi. simpl.
    by rewrite py_lower_char_fixed.
  - intros c Hc. split; [by apply Hno|].
    unfold dict_get.
    destruct (char2idx (py_lower raw) !! c) as [j|] eqn:Hj; [|done].
    exfalso. apply (Hno c Hc), elem_of_chars.
    apply char2idx_lookup in Hj. by eapply list_elem_of_lookup_2.
Qed.

Lemma py_lower_corpus_witness :
  is_upper "T"%char ∧
  dict_get (char2idx (py_lower (list_ascii_of_string "The Cat"))) "T"%char
    = Raise KeyError.
Proof.
  assert (Hup : is_upper "T"%char).
  { unfold is_upper. change (nat_of_ascii "T") with 84. lia. }
  split; [done|].
  by apply (py_lower_corpus (list_ascii_of_string "The Cat")).
Defined.

End vocabulary_more.

(** ** The sliding window (cell 6) and the vectorisation (cell 8) *)

Section windowing_more.
Local Open Scope Z_scope.

(** What a normal end of the loop of cell 6 says about its [k]-th pair. *)
Lemma window_loop_lookup (text : list ascii) (maxlen step : Z)
    (ss : list (list ascii)) (ncs : list ascii) (k : nat) (s : list ascii) :
  0 ≤ maxlen → 0 < step →
  window_loop text maxlen step = Ok (ss, ncs) → ss !! k = Some s →
  Z.of_nat k * step + maxlen < len text ∧
  s = take (Z.to_nat maxlen) (drop (Z.to_nat (Z.of_nat k * step)) text) ∧
  is_Some (ncs !! k) ∧
  ncs !! k = text !! Z.to_nat (Z.of_nat k * step + maxlen).
Proof.
  intros Hmax Hstep Hrun Hs.
  destruct (py_range_lookup (len text - maxlen) step Hstep) as (r & Hr & Hlk).
  destruct (for_each_window_body text maxlen r [] [] Hmax) as (ws & Hws & Hall).
  { eapply range_items_inside; eauto. }
  unfold window_loop in Hrun. rewrite Hr in Hrun. simpl in Hrun.
  rewrite Hws in Hrun. injection Hrun as <- <-.
  rewrite list_lookup_fmap in Hs.
  destruct (ws !! k) as [w|] eqn:Hw; [|done]. injection Hs as <-.
  destruct (Forall2_lookup_r _ _ _ k w Hall Hw) as (i & Hi & Hw1 & Hw2).
  apply Hlk in Hi as [-> Hlt].
  rewrite list_lookup_fmap, Hw. simpl. rewrite Hw2.
  split_and!; [lia|done|by eexists|done].
Qed.

(** X5. The number of training examples: none when the text is not longer than
    the window, else [(len(text) - maxlen - 1) // step + 1]; fewer than
    [step] of the positions that have a full window before them are left
    without an example. *)
Theorem window_count (text : list ascii) (maxlen step : Z) :
  0 ≤ maxlen → 0 < step →
  ∃ ss ncs,
    window_loop text maxlen step = Ok (ss, ncs) ∧
    len ncs = len ss ∧
    len ss = (if decide (len text ≤ maxlen) then 0
              else (len text - maxlen - 1) `div` step + 1) ∧
    (maxlen < len text →
     len text - maxlen ≤ len ss * step < len text - maxlen + step).
Proof.
  intros Hmax Hstep.
  destruct (window_loop_result text maxlen step Hmax Hstep)
    as (ss & ncs & Hrun & Hlen & _).
  exists ss, ncs. split; [done|].
  destruct (window_loop_length _ _ _ _ _ Hrun) as [Hss _].
  assert (Hcount : len ss = (if decide (len text ≤ maxlen) then 0
              else (len text - maxlen - 1) `div` step + 1)).
  { unfold len at 1. rewrite Hss. unfold range_length.
    destruct (decide (len text ≤ maxlen)) as [Hle|Hgt].
    - rewrite decide_False by lia. rewrite decide_False by lia. done.
    - rewrite decide_True by lia.
      assert (0 ≤ (len text - maxlen - 1) `div` step)
        by (apply Z.div_pos; lia).
      replace (len text - maxlen - 1 - 0) with (len text - maxlen - 1) by lia.
      lia. }
  split; [unfold len; lia|]. split; [done|].
  intros Hlong. rewrite Hcount, decide_False by lia.
  pose proof (Z.mul_div_le (len text - maxlen - 1) step Hstep).
  pose proof (Z.mul_succ_div_gt (len text - maxlen - 1) step Hstep).
  nia.
Qed.

Lemma window_count_witness :
  ∃ ss ncs,
    window_loop (list_ascii_of_string "the cat sat on the mat") 6 3
      = Ok (ss, ncs) ∧ len ss = 6.
Proof.
  destruct (window_count (list_ascii_of_string "the cat sat on the mat") 6 3)
    as (ss & ncs & Hrun & _ & Hcount & _); [lia..|].
  exists ss, ncs. split; [done|]. by rewrite Hcount.
Defined.

(** X6. The sentences are semi-redundant: with a stride not larger than the
    window, a sentence without its first [step] characters is the
    beginning of the next sentence, and its next character stands at
    position [maxlen - step] of the next sentence. *)
Theorem windows_overlap (text : list ascii) (maxlen step : Z)
    (ss : list (list ascii)) (ncs : list ascii) (k : nat) (s s' : list ascii) :
  0 < step → step ≤ maxlen →
  window_loop text maxlen step = Ok (ss, ncs) →
  ss !! k = Some s → ss !! S k = Some s' →
  drop (Z.to_nat step) s = take (Z.to_nat (maxlen - step)) s' ∧
  ncs !! k = s' !! Z.to_nat (maxlen - step).
Proof.
  intros Hstep Hle Hrun Hs Hs'.
  assert (Hmax : 0 ≤ maxlen) by lia.
  destruct (window_loop_lookup _ _ _ _ _ k s Hmax Hstep Hrun Hs)
    as (Hk & -> & _ & Hc).
  destruct (window_loop_lookup _ _ _ _ _ (S k) s' Hmax Hstep Hrun Hs')
    as (Hk' & -> & _ & _).
  set (a := Z.to_nat (Z.of_nat k * step)).
  set (st := Z.to_nat step). set (m := Z.to_nat maxlen).
  assert (Hks : 0 ≤ Z.of_nat k * step) by (apply Z.mul_nonneg_nonneg; lia).
  assert (Ha : Z.to_nat (Z.of_nat (S k) * step) = (a + st)%nat).
  { replace (Z.of_nat (S k) * step) with (Z.of_nat k * step + step) by lia.
    unfold a, st. by rewrite Z2Nat.inj_add by lia. }
  assert (Hm : Z.to_nat (maxlen - step) = (m - st)%nat) by (unfold m, st; lia).
  assert (Hst : (0 < st ≤ m)%nat) by (unfold m, st; lia).
  rewrite Ha, Hm, Hc. split.
  - rewrite take_take, Nat.min_l by lia.
    rewrite <- drop_drop, (take_drop_commute _ (m - st) st).
    do 2 f_equal. lia.
  - rewrite lookup_take_lt by lia. rewrite lookup_drop. f_equal.
    rewrite Z2Nat.inj_add by lia. fold a m. lia.
Qed.

Lemma windows_overlap_witness :
  drop 2 (list_ascii_of_string "the ") = take 2 (list_ascii_of_string "e ca").
Proof.
  assert (Hrun : window_loop (list_ascii_of_string "the cat sat") 4 2
    = Ok (list_ascii_of_string <$> ["the "; "e ca"; "cat "; "t sa"]%string,
          list_ascii_of_string "ctst")) by (by vm_compute).
  apply (windows_overlap _ 4 2 _ _ 0 _ _ ltac:(lia) ltac:(lia) Hrun
           eq_refl eq_refl).
Defined.

(** X7. A corpus not longer than the window gives no training example and
    no error: [sentences], [next_chars], [X] and [y] are empty. A zero
    stride is a [ValueError] in cell 6, and with a negative window length
    cell 8 cannot end normally. *)
Theorem windowing_edge_cases (text : list ascii) (maxlen : Z) :
  (∀ step, 0 < step → len text ≤ maxlen →
     window_loop text maxlen step = Ok ([], []) ∧
     vectorize text maxlen step = Ok ([], [])) ∧
  window_loop text maxlen 0 = Raise ValueError ∧
  (∀ step Xy, maxlen < 0 → vectorize text maxlen step ≠ Ok Xy).
Proof.
  split_and!.
  - intros step Hstep Hshort.
    assert (Hloop : window_loop text maxlen step = Ok ([], [])).
    { unfold window_loop, py_range, range_length.
      rewrite decide_False by lia. by rewrite !decide_False by lia. }
    split; [done|]. unfold vectorize. rewrite Hloop. simpl.
    unfold np_zeros3, np_zeros2, len in *. simpl.
    by rewrite !decide_False by lia.
  - done.
  - intros step Xy Hneg. unfold vectorize.
    destruct (window_loop text maxlen step) as [[ss ncs]|e]; [|done].
    simpl. unfold np_zeros3. by rewrite decide_True by lia.
Qed.

Lemma windowing_edge_cases_witness :
  vectorize (list_ascii_of_string "short") 40 3 = Ok ([], []).
Proof.
  apply (proj1 (windowing_edge_cases (list_ascii_of_string "short") 40) 3);
    [lia|by vm_compute].
Defined.

(** What cells 6 and 8 compute together, written out. *)
Lemma vectorize_result (text : list ascii) (maxlen step : Z) :
  0 ≤ maxlen → 0 < step →
  ∃ ss ncs,
    window_loop text maxlen step = Ok (ss, ncs) ∧
    vectorize text maxlen step
      = Ok ((λ s : list ascii,
               encode (char2idx text) (length (chars text)) <$> s) <$> ss,
            encode (char2idx text) (length (chars text)) <$> ncs) ∧
    Forall (λ s, Forall (.∈ text) s) ss ∧ Forall (.∈ text) ncs.
Proof.
  intros Hmax Hstep.
  destruct (window_loop_result text maxlen step Hmax Hstep)
    as (ss & ncs & Hloop & Hlen & Hss & Hncs).
  set (V := length (chars text)). set (c2i := char2idx text).
  assert (Hvoc : ∀ c, c ∈ text → in_vocabulary c2i V c)
    by apply in_vocabulary_text.
  exists ss, ncs. split_and!; [done| |by eapply Forall_impl; [exact Hss|intros ? []]|done].
  unfold vectorize. rewrite Hloop. simpl.
  unfold np_zeros3, np_zeros2, len.
  rewrite !decide_False by lia. simpl. rewrite !Nat2Z.id.
  pose proof (for_each_vectorize_body c2i V (Z.to_nat maxlen) ncs ss [] [])
    as Hfill.
  simpl in Hfill. rewrite drop_0 in Hfill.
  rewrite Hlen, firstn_all, <- Hlen in Hfill.
  apply Hfill; [done|..].
  - eapply Forall_impl; [exact Hss|]. intros s [HsL Hs]. split; [done|].
    eapply Forall_impl; [exact Hs|]. apply Hvoc.
  - intros k Hk. rewrite Hlen in Hk.
    apply lookup_lt_is_Some in Hk as [c Hc]. exists c. split; [done|].
    apply Hvoc. exact (Forall_lookup_1 _ ncs k c Hncs Hc).
Qed.

Lemma encode_lookup_true (text : list ascii) (c : ascii) (j : nat) :
  c ∈ text →
  encode (char2idx text) (length (chars text)) c !! j = Some true
    ↔ idx2char text !! j = Some c.
Proof.
  intros Hc. destruct (in_vocabulary_text text c Hc) as (jc & Hjc & HjcV).
  unfold encode. rewrite Hjc. simpl.
  rewrite idx2char_lookup, <- char2idx_lookup.
  destruct (decide (j < length (chars text))%nat) as [Hj|Hj].
  - rewrite one_hot_lookup by done. split.
    + intros [= Hb]. apply bool_decide_eq_true in Hb. by subst.
    + intros Hj'. rewrite Hjc in Hj'. injection Hj' as ->.
      by rewrite bool_decide_eq_true_2.
  - split.
    + intros Hlk. apply lookup_lt_Some in Hlk.
      rewrite one_hot_length in Hlk. lia.
    + intros Hj'. rewrite Hjc in Hj'. injection Hj' as ->. lia.
Qed.

(** X8. Decoding the training tensors: [X[i, t, j]] is set exactly when
    [idx2char[j]] is the [t]-th character of the [i]-th sentence, and
    [y[i, j]] exactly when [idx2char[j]] is the [i]-th next character. *)
Theorem one_hot_rows_decode (text : list ascii) (maxlen step : Z)
    (ss : list (list ascii)) (ncs : list ascii)
    (X : list (list (list bool))) (y : list (list bool)) :
  0 ≤ maxlen → 0 < step →
  window_loop text maxlen step = Ok (ss, ncs) →
  vectorize text maxlen step = Ok (X, y) →
  (∀ (i : nat) (s : list ascii) (t : nat) (c : ascii) (j : nat),
     ss !! i = Some s → s !! t = Some c →
     (((X !! i ≫= (λ plane : list (list bool), plane !! t))
         ≫= (λ row : list bool, row !! j)) = Some true
        ↔ idx2char text !! j = Some c)) ∧
  (∀ (i : nat) (c : ascii) (j : nat), ncs !! i = Some c →
     (y !! i ≫= (λ row : list bool, row !! j) = Some true
        ↔ idx2char text !! j = Some c)).
Proof.
  intros Hmax Hstep Hloop Hvec.
  destruct (vectorize_result text maxlen step Hmax Hstep)
    as (ss' & ncs' & Hloop' & Hvec' & Hss & Hncs).
  rewrite Hloop in Hloop'. injection Hloop' as <- <-.
  rewrite Hvec in Hvec'. injection Hvec' as -> ->.
  split.
  - intros i s t c j Hs Ht.
    rewrite !list_lookup_fmap, Hs. simpl.
    rewrite list_lookup_fmap, Ht. simpl.
    apply encode_lookup_true.
    pose proof (Forall_lookup_1 _ ss i s Hss Hs) as Hs'.
    exact (Forall_lookup_1 _ s t c Hs' Ht).
  - intros i c j Hc. rewrite list_lookup_fmap, Hc. simpl.
    apply encode_lookup_true. exact (Forall_lookup_1 _ ncs i c Hncs Hc).
Qed.

Lemma one_hot_rows_decode_witness :
  ∃ X y,
    vectorize (list_ascii_of_string "abcab") 2 2 = Ok (X, y) ∧
    (((X !! 1%nat ≫= (λ plane : list (list bool), plane !! 0%nat))
        ≫= (λ row : list bool, row !! 2%nat))
       = Some true
     ↔ idx2char (list_ascii_of_string "abcab") !! 2%nat = Some "c"%char).
Proof.
  destruct (vectorize (list_ascii_of_string "abcab") 2 2) as [[X y]|] eqn:Hvec;
    [|by vm_compute in Hvec].
  exists X, y. split; [done|].
  assert (Hloop : window_loop (list_ascii_of_string "abcab") 2 2
            = Ok (list_ascii_of_string <$> ["ab"; "ca"]%string,
                  list_ascii_of_string "cb")) by (by vm_compute).
  destruct (one_hot_rows_decode _ 2 2 _ _ X y ltac:(lia) ltac:(lia) Hloop Hvec)
    as [HX _].
  exact (HX 1%nat (list_ascii_of_string "ca") 0%nat "c"%char 2%nat
           eq_refl eq_refl).
Defined.

End windowing_more.

(** ** The sampler (cell 16), further *)

Section sampler_more.
Local Close Scope Z_scope.
Local Open Scope R_scope.











End sampler_more.

(** ** The generation pass (cell 17) *)

Section generation.
Local Close Scope Z_scope.

Lemma encode_row_zero (c2i : gmap ascii nat) (V t : nat) (c : ascii)
    (plane : list (list float64)) :
  in_vocabulary c2i V c → plane !! t = Some (replicate V (Finite 0)) →
  encode_row c2i (t, c) plane
    = Ok (<[t := float_of_bool <$> encode c2i V c]> plane).
Proof.
  intros (j & Hj & HjV) Ht. unfold encode_row, encode, dict_get, array_set2.
  simpl. rewrite Hj. simpl. rewrite Ht.
  rewrite decide_True by by rewrite length_replicate.
  unfold one_hot. by rewrite list_fmap_insert, fmap_replicate.
Qed.

Lemma encode_body_row (c2i : gmap ascii nat) (tc : nat * ascii)
    (plane : list (list float64)) :
  encode_body c2i tc [plane]
    = plane' ← encode_row c2i tc plane; Ok [plane'].
Proof.
  unfold encode_body, encode_row, array_set3.
  destruct (dict_get c2i tc.2); simpl; [|done].
  by destruct (array_set2 plane tc.1 a (Finite 1)).
Qed.

Lemma for_each_encode_body (c2i : gmap ascii nat) (l : list (nat * ascii)) :
  ∀ plane plane',
    for_each l (encode_row c2i) plane = Ok plane' →
    for_each l (encode_body c2i) [plane] = Ok [plane'].
Proof.
  induction l as [|tc l IH]; intros plane plane' Hl.
  - by injection Hl as <-.
  - rewrite for_each_cons in Hl. rewrite for_each_cons, encode_body_row.
    destruct (encode_row c2i tc plane) as [plane1|]; simpl in *; [|done].
    by apply IH.
Qed.

Lemma encode_sentence_run (text : list ascii) (maxlen : Z)
    (sentence : list ascii) :
  (0 ≤ maxlen)%Z → length sentence = Z.to_nat maxlen →
  Forall (.∈ text) sentence →
  encode_sentence text maxlen sentence
    = Ok [(λ c, float_of_bool
                  <$> encode (char2idx text) (length (chars text)) c)
            <$> sentence].
Proof.
  intros Hmax Hlen Hs. unfold encode_sentence, array_zeros3, len.
  rewrite decide_False by lia. simpl. rewrite Nat2Z.id.
  change (Pos.to_nat 1) with 1. simpl.
  apply for_each_encode_body. rewrite <- Hlen.
  apply (for_each_fill (in_vocabulary (char2idx text) (length (chars text)))
           (λ c, float_of_bool
                   <$> encode (char2idx text) (length (chars text)) c)
           (replicate (length (chars text)) (Finite 0))
           (encode_row (char2idx text))
           (λ k x st, encode_row_zero _ _ k x st) sentence []).
  eapply Forall_impl; [exact Hs|]. apply in_vocabulary_text.
Qed.

(** X16. The network's input is the one-hot code of the current sentence, with
    the rows of the training tensor [X] written as floats: a sentence of
    [maxlen] characters of the corpus is encoded without error into the
    batch [x] of shape [(1, maxlen, len(chars))] whose row [t] has its
    single [1.0] at [char2idx] of the [t]-th character. *)
Theorem encode_sentence_one_hot (text : list ascii) (maxlen : Z)
    (sentence : list ascii) :
  (0 ≤ maxlen)%Z → length sentence = Z.to_nat maxlen →
  Forall (.∈ text) sentence →
  encode_sentence text maxlen sentence
    = Ok [(λ c, float_of_bool
                  <$> encode (char2idx text) (length (chars text)) c)
            <$> sentence] ∧
  ∀ t c, sentence !! t = Some c →
    ∃ j, char2idx text !! c = Some j ∧ (j < length (chars text))%nat ∧
         float_of_bool <$> encode (char2idx text) (length (chars text)) c
           = <[j := Finite 1]> (replicate (length (chars text)) (Finite 0)).
Proof.
  intros Hmax Hlen Hs. split; [by apply encode_sentence_run|].
  intros t c Ht.
  destruct (in_vocabulary_text text c (Forall_lookup_1 _ _ t c Hs Ht))
    as (j & Hj & HjV).
  exists j. split; [done|]. split; [done|].
  unfold encode, one_hot. rewrite Hj. simpl.
  by rewrite list_fmap_insert, fmap_replicate.
Qed.

Lemma encode_sentence_one_hot_witness :
  encode_sentence (list_ascii_of_string "abc") 2 (list_ascii_of_string "ca")
    = Ok [[[Finite 0; Finite 0; Finite 1]; [Finite 1; Finite 0; Finite 0]]].
Proof.
  destruct (encode_sentence_one_hot (list_ascii_of_string "abc") 2
              (list_ascii_of_string "ca")) as [Hrun _].
  - lia.
  - done.
  - repeat constructor; simpl; rewrite !elem_of_cons; tauto.
  - rewrite Hrun. by vm_compute.
Defined.

Lemma py_slice_tail {A} (s : list A) :
  s ≠ [] → py_slice s 1 (len s) = drop 1 s.
Proof.
  intros Hne. unfold py_slice, len.
  assert (Hlen : (1 ≤ length s)%nat) by (destruct s; [done|simpl; lia]).
  rewrite !clamp_bound_id by lia. rewrite Nat2Z.id.
  change (Z.to_nat 1) with 1. apply take_ge. rewrite length_drop. lia.
Qed.

Lemma py_range_length_400 :
  ∃ r, py_range 0 400 1 = Ok r ∧ length r = 400.
Proof.
  unfold py_range. rewrite decide_False by lia. eexists. split; [done|].
  rewrite length_fmap, length_seq. by vm_compute.
Qed.

(** *** The loop of the pass *)

(** What one turn of the loop has done when it ends normally. *)
Lemma generate_body_inv (text : list ascii) (maxlen : Z)
    (predict : list (list (list float64)) → list float64)
    (diversity : float64) (i : Z) (s s' : gen_state) :
  generate_body text maxlen predict diversity i s = Ok s' →
  ∃ c, c ∈ chars text ∧
    gen_generated s' = gen_generated s ++ [c] ∧
    gen_sentence s'
      = py_slice (gen_sentence s) 1 (len (gen_sentence s)) ++ [c] ∧
    gen_stdout s' = gen_stdout s ++ [c] ∧
    advanced (gen_random s) (gen_random s').
Proof.
  unfold generate_body.
  destruct (encode_sentence text maxlen (gen_sentence s)) as [x|e]; [|done].
  cbn [mbind result_bind].
  destruct (sample (predict x) diversity (gen_random s)) as [[k st']|e]
    eqn:Hsample; [|done].
  cbn [mbind result_bind fst snd].
  destruct (dict_get (idx2char text) k) as [c|e] eqn:Hc; [|done].
  cbn [mbind result_bind]. intros [= <-]. exists c. cbn.
  apply dict_get_Ok, idx2char_lookup in Hc.
  apply sample_lt in Hsample as [_ Hadv].
  split; [by eapply list_elem_of_lookup_2|done].
Qed.

Lemma generate_loop_inv (text : list ascii) (maxlen : Z)
    (predict : list (list (list float64)) → list float64)
    (diversity : float64) (r : list Z) :
  ∀ s s' : gen_state,
    for_each r (generate_body text maxlen predict diversity) s = Ok s' →
    ∃ suffix,
      gen_generated s' = gen_generated s ++ suffix ∧
      gen_stdout s' = gen_stdout s ++ suffix ∧
      length suffix = length r ∧
      Forall (.∈ chars text) suffix ∧
      (gen_sentence s ≠ [] →
       gen_sentence s' = drop (length r) (gen_sentence s ++ suffix)) ∧
      advanced (gen_random s) (gen_random s').
Proof.
  induction r as [|i r IH]; intros s s' Hrun.
  - injection Hrun as <-. exists []. rewrite !app_nil_r.
    repeat split; (done || apply advanced_refl).
  - rewrite for_each_cons in Hrun.
    destruct (generate_body _ _ _ _ i s) as [s1|e] eqn:Hbody; [|done].
    cbn [mbind result_bind] in Hrun.
    apply generate_body_inv in Hbody
      as (c & Hc & Hgen & Hsent & Hout & Hadv).
    apply IH in Hrun as (suffix & Hgen' & Hout' & Hlen & Hin & Hsent' & Hadv').
    exists (c :: suffix). rewrite Hgen', Hout', Hgen, Hout, <- !app_assoc.
    split; [done|]. split; [done|]. split; [simpl; by rewrite Hlen|].
    split; [by constructor|]. split; [|by eapply advanced_trans].
    intros Hne. rewrite Hsent', Hsent; [|rewrite Hsent; by destruct (py_slice _ _ _)].
    rewrite py_slice_tail by done.
    destruct (gen_sentence s) as [|c0 sentence]; [done|]. simpl.
    by rewrite drop_0, <- app_assoc.
Qed.

(** What the whole pass has done when it ends normally. *)
Lemma generate_inv (text : list ascii) (maxlen : Z)
    (predict : list (list (list float64)) → list float64)
    (diversity : float64) (start_index : Z) (st : RandomState)
    (stdout : list ascii) (s : gen_state) :
  generate text maxlen predict diversity start_index st stdout = Ok s →
  ∃ suffix,
    gen_generated s
      = py_slice text start_index (start_index + maxlen) ++ suffix ∧
    gen_stdout s
      = stdout
          ++ seed_banner (py_slice text start_index (start_index + maxlen))
          ++ [newline] ++ gen_generated s ++ [newline] ∧
    length suffix = 400 ∧
    Forall (.∈ chars text) suffix ∧
    (py_slice text start_index (start_index + maxlen) ≠ [] →
     gen_sentence s = drop 400 (gen_generated s)) ∧
    advanced st (gen_random s).
Proof.
  unfold generate. cbv zeta.
  set (seed := py_slice text start_index (start_index + maxlen)).
  destruct py_range_length_400 as (r & -> & Hr). cbn [mbind result_bind].
  destruct (for_each r _ _) as [s1|e] eqn:Hloop; [|done].
  cbn [mbind result_bind]. intros [= <-]. cbn [gen_generated gen_sentence
    gen_stdout gen_random].
  apply generate_loop_inv in Hloop
    as (suffix & Hgen & Hout & Hlen & Hin & Hsent & Hadv).
  cbn [gen_generated gen_sentence gen_stdout gen_random app] in *.
  exists suffix. rewrite Hgen, Hout, Hr in *.
  split; [done|]. split; [by rewrite <- !app_assoc|]. done.
Qed.

(** One turn of the loop when the network is certain of category [k]. *)
Lemma generate_body_one_hot (text : list ascii) (maxlen : Z)
    (predict : list (list (list float64)) → list float64) (T : R)
    (k : nat) (c : ascii) (i : Z) (s : gen_state) :
  (0 < maxlen)%Z → chars text !! k = Some c →
  (∀ x, predict x
        = Finite <$> <[k := 1%R]> (replicate (length (chars text)) 0%R)) →
  (0 < T)%R →
  length (gen_sentence s) = Z.to_nat maxlen →
  Forall (.∈ text) (gen_sentence s) →
  ∃ st',
    generate_body text maxlen predict (Finite T) i s
      = Ok (mkGenState (gen_generated s ++ [c])
                       (drop 1 (gen_sentence s) ++ [c])
                       (gen_stdout s ++ [c]) st').
Proof.
  intros Hmax Hc Hone HT Hlen Hs. unfold generate_body.
  rewrite encode_sentence_run by (done || lia). cbn [mbind result_bind].
  rewrite Hone.
  destruct (sample_one_hot_run (length (chars text)) k T (gen_random s))
    as [Hrun _]; [by eapply lookup_lt_Some|done|].
  rewrite Hrun. cbn [mbind result_bind fst snd].
  rewrite (proj2 (dict_get_Ok (idx2char text) k c))
    by by apply idx2char_lookup.
  cbn [mbind result_bind].
  rewrite py_slice_tail
    by (intros Hnil; rewrite Hnil in Hlen; simpl in Hlen; lia).
  by eexists.
Qed.

Lemma generate_loop_one_hot (text : list ascii) (maxlen : Z)
    (predict : list (list (list float64)) → list float64) (T : R)
    (k : nat) (c : ascii) (r : list Z) :
  (0 < maxlen)%Z → chars text !! k = Some c →
  (∀ x, predict x
        = Finite <$> <[k := 1%R]> (replicate (length (chars text)) 0%R)) →
  (0 < T)%R →
  ∀ s : gen_state,
    length (gen_sentence s) = Z.to_nat maxlen →
    Forall (.∈ text) (gen_sentence s) →
    ∃ s',
      for_each r (generate_body text maxlen predict (Finite T)) s = Ok s' ∧
      gen_generated s' = gen_generated s ++ replicate (length r) c.
Proof.
  intros Hmax Hc Hone HT.
  induction r as [|i r IH]; intros s Hlen Hs.
  - exists s. split; [done|]. by rewrite app_nil_r.
  - rewrite for_each_cons.
    destruct (generate_body_one_hot text maxlen predict T k c i s
                Hmax Hc Hone HT Hlen Hs) as [st1 Hbody].
    rewrite Hbody. cbn [mbind result_bind].
    set (s1 := mkGenState _ _ _ _).
    destruct (IH s1) as (s' & Hloop & Hgen).
    { subst s1. cbn [gen_sentence].
      rewrite length_app, length_drop. simpl. lia. }
    { subst s1. cbn [gen_sentence]. apply Forall_app.
      split; [by apply Forall_drop|].
      apply Forall_singleton, elem_of_chars.
      by eapply list_elem_of_lookup_2. }
    exists s'. split; [done|]. rewrite Hgen. subst s1. cbn [gen_generated].
    by rewrite <- app_assoc.
Qed.

(** The whole pass when the network is certain of category [k]. *)
Lemma generate_one_hot_run (text : list ascii) (maxlen : Z)
    (predict : list (list (list float64)) → list float64) (T : R)
    (start_index : Z) (st : RandomState) (stdout : list ascii)
    (k : nat) (c : ascii) :
  (0 < maxlen)%Z → (0 ≤ start_index ≤ len text - maxlen - 1)%Z →
  chars text !! k = Some c →
  (∀ x, predict x
        = Finite <$> <[k := 1%R]> (replicate (length (chars text)) 0%R)) →
  (0 < T)%R →
  ∃ s,
    generate text maxlen predict (Finite T) start_index st stdout = Ok s ∧
    gen_generated s
      = py_slice text start_index (start_index + maxlen) ++ replicate 400 c.
Proof.
  intros Hmax Hstart Hc Hone HT. unfold generate. cbv zeta.
  set (seed := py_slice text start_index (start_index + maxlen)).
  destruct py_range_length_400 as (r & -> & Hr). cbn [mbind result_bind].
  set (s0 := mkGenState _ _ _ _).
  destruct (generate_loop_one_hot text maxlen predict T k c r
              Hmax Hc Hone HT s0) as (s' & Hloop & Hgen).
  { subst s0 seed. cbn [gen_sentence]. rewrite py_slice_inside by lia.
    rewrite length_take, length_drop. unfold len in Hstart. lia. }
  { subst s0 seed. cbn [gen_sentence]. rewrite py_slice_inside by lia.
    by apply Forall_take, Forall_drop, Forall_forall. }
  rewrite Hloop. cbn [mbind result_bind]. eexists. split; [done|].
  cbn [gen_generated]. rewrite Hgen, Hr. by subst s0.
Qed.

(** The run the examples below are taken from: the corpus [abcab], a
    window of two characters from position 1 and a network that always
    predicts [b]. *)
Lemma generate_example :
  ∃ s,
    generate (list_ascii_of_string "abcab") 2 (λ _, Finite <$> [0; 1; 0]%R)
      (Finite (1 / 2)) 1 (mkRandomState (λ _, 0%Z) 0) [] = Ok s.
Proof.
  destruct (generate_one_hot_run (list_ascii_of_string "abcab") 2
              (λ _, Finite <$> [0; 1; 0]%R) (1 / 2)%R 1
              (mkRandomState (λ _, 0%Z) 0) [] 1 "b"%char)
    as (s & Hrun & _).
  - lia.
  - unfold len. simpl. lia.
  - by vm_compute.
  - intros x. by vm_compute.
  - lra.
  - by exists s.
Qed.

(** X17. When the generation pass for one diversity (lines 665-685) ends
    normally, with a window [0 < maxlen] and a start index in the range
    [random.randint(0, len(text) - maxlen - 1)] draws from, [generated]
    is the seed [text[start_index : start_index + maxlen]] followed by
    exactly 400 characters of the vocabulary, and the final [sentence]
    is the last [maxlen] characters of [generated]; this for every
    network, diversity and generator state. *)
Theorem generate_text (text : list ascii) (maxlen : Z)
    (predict : list (list (list float64)) → list float64)
    (diversity : float64) (start_index : Z) (st : RandomState)
    (stdout : list ascii) (s : gen_state) :
  (0 < maxlen)%Z → (0 ≤ start_index ≤ len text - maxlen - 1)%Z →
  generate text maxlen predict diversity start_index st stdout = Ok s →
  ∃ suffix,
    gen_generated s
      = take (Z.to_nat maxlen) (drop (Z.to_nat start_index) text) ++ suffix ∧
    length suffix = 400 ∧
    Forall (.∈ chars text) suffix ∧
    length (gen_generated s) = Z.to_nat maxlen + 400 ∧
    gen_sentence s = drop 400 (gen_generated s) ∧
    length (gen_sentence s) = Z.to_nat maxlen.
Proof.
  intros Hmax Hstart Hrun.
  apply generate_inv in Hrun as (suffix & Hgen & _ & Hlen & Hin & Hsent & _).
  rewrite py_slice_inside in Hgen, Hsent by lia.
  assert (Hseed : length (take (Z.to_nat maxlen)
                            (drop (Z.to_nat start_index) text))
                  = Z.to_nat maxlen).
  { rewrite length_take, length_drop. unfold len in Hstart. lia. }
  exists suffix. rewrite Hsent.
  2:{ intros Hnil. rewrite Hnil in Hseed. simpl in Hseed. lia. }
  rewrite length_drop, Hgen, length_app, Hseed, Hlen.
  repeat split; (done || lia).
Qed.

Lemma generate_text_witness :
  ∃ s, generate (list_ascii_of_string "abcab") 2
               (λ _, Finite <$> [0; 1; 0]%R) (Finite (1 / 2)) 1
               (mkRandomState (λ _, 0%Z) 0) [] = Ok s ∧
       length (gen_generated s) = 402 ∧ length (gen_sentence s) = 2.
Proof.
  destruct generate_example as [s Hrun]. exists s. split; [exact Hrun|].
  assert (Hmax : (0 < 2)%Z) by lia.
  assert (Hstart : (0 ≤ 1 ≤ len (list_ascii_of_string "abcab") - 2 - 1)%Z)
    by (unfold len; simpl; lia).
  destruct (generate_text _ _ _ _ _ _ _ s Hmax Hstart Hrun)
    as (suffix & _ & _ & _ & Hlen & _ & Hsentence).
  done.
Defined.

(** X18. What a pass that ends normally has written to the standard
    output: after whatever was written before, the banner line with the
    seed between double quotes, then [generated] (the seed, then each
    character as it is drawn) and the newline of the closing
    [print()]. *)
Theorem generate_stdout (text : list ascii) (maxlen : Z)
    (predict : list (list (list float64)) → list float64)
    (diversity : float64) (start_index : Z) (st : RandomState)
    (stdout : list ascii) (s : gen_state) :
  generate text maxlen predict diversity start_index st stdout = Ok s →
  gen_stdout s
    = stdout
        ++ seed_banner (py_slice text start_index (start_index + maxlen))
        ++ [newline] ++ gen_generated s ++ [newline].
Proof.
  intros Hrun. by apply generate_inv in Hrun as (suffix & _ & Hout & _).
Qed.

Lemma generate_stdout_witness :
  ∃ s, generate (list_ascii_of_string "abcab") 2
               (λ _, Finite <$> [0; 1; 0]%R) (Finite (1 / 2)) 1
               (mkRandomState (λ _, 0%Z) 0) [] = Ok s ∧
       gen_stdout s
         = seed_banner (list_ascii_of_string "bc") ++ [newline]
             ++ gen_generated s ++ [newline].
Proof.
  destruct generate_example as [s Hrun]. exists s. split; [exact Hrun|].
  exact (generate_stdout _ _ _ _ _ _ _ s Hrun).
Defined.

(** X20. A network that is certain fixes the output: if every prediction
    is the one-hot vector of category [k], the pass appends 400 copies of
    [idx2char[k]] to the seed, for every diversity and every state of
    the generator. *)
Theorem generate_one_hot_predictor (text : list ascii) (maxlen : Z)
    (predict : list (list (list float64)) → list float64) (T : R)
    (start_index : Z) (st : RandomState) (stdout : list ascii)
    (k : nat) (c : ascii) :
  (0 < maxlen)%Z → (0 ≤ start_index ≤ len text - maxlen - 1)%Z →
  idx2char text !! k = Some c →
  (∀ x, predict x
        = Finite <$> <[k := 1%R]> (replicate (length (chars text)) 0%R)) →
  (0 < T)%R →
  ∃ s,
    generate text maxlen predict (Finite T) start_index st stdout = Ok s ∧
    gen_generated s
      = py_slice text start_index (start_index + maxlen) ++ replicate 400 c.
Proof.
  intros Hmax Hstart Hc Hone HT. apply idx2char_lookup in Hc.
  by apply (generate_one_hot_run text maxlen predict T start_index st stdout
              k c).
Qed.

Lemma generate_one_hot_predictor_witness :
  ∃ s, generate (list_ascii_of_string "abcab") 2
               (λ _, Finite <$> [0; 1; 0]%R) (Finite (1 / 2)) 1
               (mkRandomState (λ _, 0%Z) 0) [] = Ok s ∧
       gen_generated s = list_ascii_of_string "bc" ++ replicate 400 "b"%char.
Proof.
  destruct (generate_one_hot_predictor (list_ascii_of_string "abcab") 2
              (λ _, Finite <$> [0; 1; 0]%R) (1 / 2)%R 1
              (mkRandomState (λ _, 0%Z) 0) [] 1 "b"%char)
    as (s & Hrun & Hgen).
  - lia.
  - unfold len. simpl. lia.
  - by vm_compute.
  - intros x. by vm_compute.
  - lra.
  - by exists s.
Defined.

(** X21. The pass and the generator: a pass that ends normally leaves
    the stream of variates as it was and never moves the position of the
    generator back. *)
Theorem generate_generator (text : list ascii) (maxlen : Z)
    (predict : list (list (list float64)) → list float64)
    (diversity : float64) (start_index : Z) (st : RandomState)
    (stdout : list ascii) (s : gen_state) :
  generate text maxlen predict diversity start_index st stdout = Ok s →
  rk_stream (gen_random s) = rk_stream st ∧
  rk_pos st ≤ rk_pos (gen_random s).
Proof.
  intros Hrun. by apply generate_inv in Hrun as (suffix & _ & _ & _ & _ & _ & Hadv).
Qed.

Lemma generate_generator_witness :
  ∃ s, generate (list_ascii_of_string "abcab") 2
               (λ _, Finite <$> [0; 1; 0]%R) (Finite (1 / 2)) 1
               (mkRandomState (λ _, 0%Z) 0) [] = Ok s ∧
       rk_stream (gen_random s) = (λ _, 0%Z).
Proof.
  destruct generate_example as [s Hrun]. exists s. split; [exact Hrun|].
  exact (proj1 (generate_generator _ _ _ _ _ _ _ s Hrun)).
Defined.

End generation.

(** ** Parameter counts (cell 13), continued *)

Section parameters_more.
Local Open Scope Z_scope.

(** X9. An LSTM layer holds four dense maps (the three gates and the cell
    candidate) from the input joined with the previous output to the
    cells: [num_lstm_params(d, n) = 4 * num_fc_params(d + n, n)], for all
    integers; for dimensions that are not negative neither count is
    negative and both grow with either dimension. *)
Theorem lstm_params_four_gates :
  (∀ d n : Z, num_lstm_params d n = 4 * num_fc_params (d + n) n) ∧
  (∀ d d' n n' : Z, 0 ≤ d ≤ d' → 0 ≤ n ≤ n' →
     0 ≤ num_fc_params d n ≤ num_fc_params d' n' ∧
     0 ≤ num_lstm_params d n ≤ num_lstm_params d' n').
Proof.
  unfold num_lstm_params, num_fc_params. split; [intros; lia|].
  intros d d' n n' Hd Hn.
  assert (0 ≤ d * n) by nia. assert (d * n ≤ d' * n') by nia.
  assert (0 ≤ n * n) by nia. assert (n * n ≤ n' * n') by nia.
  lia.
Qed.

Lemma lstm_params_four_gates_witness :
  num_lstm_params 59 128 = 4 * num_fc_params (59 + 128) 128 ∧
  0 ≤ num_lstm_params 59 128 ≤ num_lstm_params 60 128.
Proof.
  destruct lstm_params_four_gates as [Hfour Hmono]. split; [apply Hfour|].
  apply (Hmono 59 60 128 128); lia.
Defined.

End parameters_more.
